(** * A raw WebSocket server (RFC 6455), embedded from [server.mjs]

    The development follows the source file top to bottom: the constants,
    the frame reader [onSocketreadable], the two senders [sendMessage] and
    [sendPong], and the handshake ([prepareHandshakeHeader],
    [createSocketAccept]).  Bytes are integers in [0, 255] carried as [Z];
    a [Buffer] is a [list Z]. *)

From Stdlib Require Import String Ascii.
From Stdlib Require Import ZArith List Bool Lia.
Import ListNotations.
Local Open Scope Z_scope.

(** ** JavaScript arithmetic the source relies on *)

Module JS.

(** [ToInt32]: the operand conversion of every bitwise operator. *)
Definition toInt32 (x : Z) : Z :=
  let m := x mod 2 ^ 32 in
  if 2 ^ 31 <=? m then m - 2 ^ 32 else m.

(** [x << n]: both operands go through the 32-bit conversions and only the
    low five bits of the shift count are used. *)
Definition shl (x n : Z) : Z :=
  toInt32 (Z.shiftl (toInt32 x) (Z.land n 31)).

(** [Boolean(x)] on a number. *)
Definition toBoolean (x : Z) : bool := negb (x =? 0).

(** [Buffer.from([...])] and an indexed store into a [Buffer] keep the low
    eight bits of each element. *)
Definition toUint8 (x : Z) : Z := Z.land x 255.

End JS.

(** ** [Buffer] accessors *)

Module Buffer.

Definition readUInt16BE (b : list Z) : Z :=
  nth 0 b 0 * 256 + nth 1 b 0.

Definition readUInt32BE (b : list Z) : Z :=
  ((nth 0 b 0 * 256 + nth 1 b 0) * 256 + nth 2 b 0) * 256 + nth 3 b 0.

(** [buf.writeUInt16BE(v, 0)] on a fresh two-byte buffer.  The only call
    site is guarded by [v <= 0xffff]. *)
Definition writeUInt16BE (v : Z) : list Z :=
  [v / 256 mod 256; v mod 256].

(** [buf.writeUInt32BE(v, off)]: the four bytes stored, or [None] where
    Node raises [ERR_OUT_OF_RANGE] (value outside [0, 2^32 - 1]). *)
Definition writeUInt32BE (v : Z) : option (list Z) :=
  if (0 <=? v) && (v <? 2 ^ 32)
  then Some [v / 2 ^ 24 mod 256; v / 2 ^ 16 mod 256; v / 2 ^ 8 mod 256; v mod 256]
  else None.

End Buffer.

(** ** Constants (lines 23-58 of the source) *)

Definition WEB_SOCKET_MAGIC_STRING : string :=
  "258EAFA5-E914-47DA-95CA-C5AB0DC85B11"%string.

Definition SEVEN_BIT_INTIGER_MARKER : Z := 125.
Definition SIXTEEN_BIT_INTIGER_MARKER : Z := 126.
Definition SIXTYFOUR_BIT_INTIGER_MARKER : Z := 127.
Definition FIRST_BIT : Z := 128.

Module OPCODES.
Definition CONTINUATION : Z := 0x0.
Definition TEXT : Z := 0x1.
Definition BINARY : Z := 0x2.
Definition CLOSE : Z := 0x8.
Definition PING : Z := 0x9.
Definition PONG : Z := 0xa.
End OPCODES.

(** ** The socket and the handler monad *)

(** What the server prints.  Only the lines of the frame handler and of the
    senders are recorded. *)
Inductive logline : Type :=
| LogReceived (message : list Z) (messageLength opcode : Z)
| LogFailedRead
| LogCloseReceived
| LogPingReceived
| LogSent (message : list Z) (dataLength : Z).

(** One upgraded connection as the handler sees it: the bytes Node has
    buffered on the readable side, the bytes handed to [socket.write] so far
    (in order), whether [socket.end()] has been called, and the console. *)
Record socket : Type := mkSocket {
  readable : list Z;
  wire : list Z;
  ended : bool;
  console : list logline
}.

Definition set_readable (bs : list Z) (s : socket) : socket :=
  mkSocket bs (wire s) (ended s) (console s).

(** How a statement of the handler leaves: it falls through with a value,
    it executes [return], or an exception (the [TypeError] of reading a
    property of [null], a [RangeError] of a [Buffer] writer) leaves the
    handler.  Effects on the socket made before the exit stay. *)
Inductive outcome (A : Type) : Type :=
| Done (a : A)
| Return
| Throw.
Arguments Done {A} a.
Arguments Return {A}.
Arguments Throw {A}.

Definition M (A : Type) : Type := socket -> socket * outcome A.

Definition ret {A} (a : A) : M A := fun s => (s, Done a).
Definition return_ {A} : M A := fun s => (s, Return).
Definition throw {A} : M A := fun s => (s, Throw).

Definition bind {A B} (m : M A) (k : A -> M B) : M B :=
  fun s =>
    match m s with
    | (s', Done a) => k a s'
    | (s', Return) => (s', Return)
    | (s', Throw) => (s', Throw)
    end.

Notation "x <- m ;; k" := (bind m (fun x => k))
  (at level 61, m at next level, right associativity).
Notation "m ;;; k" := (bind m (fun _ => k))
  (at level 61, right associativity).

(** The largest size a single read may ask for (1 GiB). *)
Definition MAX_HWM : Z := 0x40000000.

(** [socket.read(n)] on a stream that has not ended (Node's
    [Readable.prototype.read]): a size above 1 GiB raises
    [ERR_OUT_OF_RANGE]; the result is [null] when [n <= 0] or when fewer
    than [n] bytes are buffered, and then nothing is consumed; otherwise the
    first [n] buffered bytes are removed and returned. *)
Definition socket_read (n : Z) : M (option (list Z)) :=
  fun s =>
    if MAX_HWM <? n then (s, Throw)
    else if (n <=? 0) || (Z.of_nat (length (readable s)) <? n)
    then (s, Done None)
    else (set_readable (skipn (Z.to_nat n) (readable s)) s,
          Done (Some (firstn (Z.to_nat n) (readable s)))).

(** [socket.write(chunk)]: the bytes go on the wire in call order.  After
    [socket.end()] Node refuses the write; nothing is sent. *)
Definition socket_write (chunk : list Z) : M unit :=
  fun s =>
    if ended s then (s, Done tt)
    else (mkSocket (readable s) (wire s ++ chunk) (ended s) (console s), Done tt).

(** [socket.end()]. *)
Definition socket_end : M unit :=
  fun s => (mkSocket (readable s) (wire s) true (console s), Done tt).

Definition console_log (l : logline) : M unit :=
  fun s => (mkSocket (readable s) (wire s) (ended s) (console s ++ [l]), Done tt).

(** [const [x] = b]: array destructuring of a possibly-[null] buffer. *)
Definition destructure1 (b : option (list Z)) : M Z :=
  match b with
  | None => throw
  | Some bs => ret (nth 0 bs 0)
  end.

(** [b.method(...)] on a possibly-[null] buffer. *)
Definition deref (b : option (list Z)) : M (list Z) :=
  match b with
  | None => throw
  | Some bs => ret bs
  end.

(** ** [onSocketreadable], lines 144-209 *)

(** The locals of the handler once a frame has been read and unmasked. *)
Record frame : Type := mkFrame {
  isFinalFrame : bool;
  opcode : Z;
  isMasked : bool;
  messageLength : Z;
  decoded : list Z
}.

(** Line 156. *)
Definition lengthIndicatorInBits (secondByte : Z) : Z := secondByte - FIRST_BIT.

(** Lines 159-172: the three-way branch on the length indicator. *)
Definition readMessageLength (lengthIndicator : Z) : M Z :=
  if lengthIndicator <=? SEVEN_BIT_INTIGER_MARKER then
    ret lengthIndicator
  else if lengthIndicator =? SIXTEEN_BIT_INTIGER_MARKER then
    b <- socket_read 2 ;;
    bs <- deref b ;;
    ret (Buffer.readUInt16BE bs)
  else if lengthIndicator =? SIXTYFOUR_BIT_INTIGER_MARKER then
    u <- socket_read 4 ;;
    ubs <- deref u ;;
    let upperBits := Buffer.readUInt32BE ubs in
    l <- socket_read 4 ;;
    lbs <- deref l ;;
    let lowerBits := Buffer.readUInt32BE lbs in
    ret (JS.shl upperBits 32 + lowerBits)
  else
    ret 0.

(** Lines 187-190: [decoded[i] = encoded[i] ^ maskKey[i % 4]]. *)
Fixpoint unmaskFrom (i : nat) (encoded maskKey : list Z) : list Z :=
  match encoded with
  | [] => []
  | e :: rest =>
      JS.toUint8 (Z.lxor e (nth (i mod 4) maskKey 0)) :: unmaskFrom (S i) rest maskKey
  end.

(** The loop indexes [maskKey] on its first iteration, which throws when the
    mask key read came back [null]. *)
Definition unmask (encoded : list Z) (maskKey : option (list Z)) : M (list Z) :=
  match encoded, maskKey with
  | [], _ => ret []
  | _ :: _, None => throw
  | _ :: _, Some key => ret (unmaskFrom 0 encoded key)
  end.

(** Lines 149-190: from the first byte to the decoded payload. *)
Definition readFrameAfter (firstByte : Z) : M frame :=
  let fin := JS.toBoolean (Z.land firstByte 0x80) in
  let op := Z.land firstByte 0x0f in
  sb <- socket_read 1 ;;
  secondByte <- destructure1 sb ;;
  let masked := JS.toBoolean (Z.land secondByte 0x80) in
  len <- readMessageLength (lengthIndicatorInBits secondByte) ;;
  maskKey <- socket_read 4 ;;
  encoded <- socket_read len ;;
  match encoded with
  | None => console_log LogFailedRead ;;; return_
  | Some enc =>
      dec <- unmask enc maskKey ;;
      ret (mkFrame fin op masked len dec)
  end.

(** Lines 146-190: everything up to the decoded payload. *)
Definition readFrame : M frame :=
  firstByteBuffer <- socket_read 1 ;;
  match firstByteBuffer with
  | None => return_
  | Some fb => readFrameAfter (nth 0 fb 0)
  end.

(** ** [sendMessage] and [sendPong], lines 221-289

    A JavaScript string is carried as the bytes of its UTF-8 encoding, so
    [Buffer.from(message)] is the carried list itself. *)

(** Lines 225-243: the 7-bit field and the extended-length bytes chosen for a
    payload of [dataLength] bytes. *)
Definition lengthEncoding (dataLength : Z) : M (Z * list Z) :=
  if dataLength <=? SEVEN_BIT_INTIGER_MARKER then
    ret (dataLength, [])
  else if dataLength <=? 0xffff then
    ret (SIXTEEN_BIT_INTIGER_MARKER, Buffer.writeUInt16BE dataLength)
  else
    match Buffer.writeUInt32BE 0, Buffer.writeUInt32BE dataLength with
    | Some upper, Some lower => ret (SIXTYFOUR_BIT_INTIGER_MARKER, upper ++ lower)
    | _, _ => throw
    end.

Definition sendMessage (message : list Z) (opcode : Z) : M unit :=
  let dataBuffer := message in
  let dataLength := Z.of_nat (length dataBuffer) in
  enc <- lengthEncoding dataLength ;;
  let payloadLength := fst enc in
  let extendedPayloadLength := snd enc in
  let firstByte := Z.lor 0x80 opcode in
  let secondByte := payloadLength in
  let header := map JS.toUint8 [firstByte; secondByte] ++ extendedPayloadLength in
  socket_write header ;;;
  socket_write dataBuffer ;;;
  console_log (LogSent message dataLength).

Definition sendPong (data : list Z) : M unit :=
  let firstByte := Z.lor 0x80 OPCODES.PONG in
  let secondByte := Z.of_nat (length data) in
  let header := map JS.toUint8 [firstByte; secondByte] in
  socket_write header ;;;
  socket_write data.

(** ** The frame handler as a whole *)

(** A chunk arrives: Node appends it to the readable buffer. *)
Definition push (chunk : list Z) (s : socket) : socket :=
  set_readable (readable s ++ chunk) s.

Section Handler.

(** [toStringUtf8 b] stands for the UTF-8 bytes of the string
    [b.toString("utf8")]: Node's decoder, which is the identity on
    well-formed UTF-8 and substitutes U+FFFD elsewhere. *)
Variable toStringUtf8 : list Z -> list Z.

(** The bytes of the literal ["Echo: "]. *)
Definition echoPrefix : list Z := [69; 99; 104; 111; 58; 32].

(** Lines 192-208: the log line and the dispatch on the opcode. *)
Definition handleFrame (f : frame) : M unit :=
  let receivedMessage := toStringUtf8 (decoded f) in
  console_log (LogReceived receivedMessage (messageLength f) (opcode f)) ;;;
  if opcode f =? OPCODES.TEXT then
    let responseMessage := echoPrefix ++ receivedMessage in
    sendMessage responseMessage OPCODES.TEXT
  else if opcode f =? OPCODES.CLOSE then
    console_log LogCloseReceived ;;;
    socket_end
  else if opcode f =? OPCODES.PING then
    console_log LogPingReceived ;;;
    sendPong (decoded f)
  else
    ret tt.

Definition onSocketreadable : M unit :=
  f <- readFrame ;;
  handleFrame f.

(** A chunk arrives and Node emits ['readable'], which runs the handler
    once. *)
Definition deliver (chunk : list Z) (s : socket) : socket * outcome unit :=
  onSocketreadable (push chunk s).

End Handler.

(** A freshly upgraded connection. *)
Definition fresh : socket := mkSocket [] [] false [].

(** The frames the reader completes over a sequence of chunks, one handler
    run per chunk, in order. *)
Fixpoint framesRead (chunks : list (list Z)) (s : socket) : list frame :=
  match chunks with
  | [] => []
  | c :: rest =>
      match readFrame (push c s) with
      | (s', Done f) => f :: framesRead rest s'
      | (s', _) => framesRead rest s'
      end
  end.

(** ** What a client puts on the wire (RFC 6455, section 5.2)

    Used to name the inputs of the theorems; the server has no code that
    builds a masked frame. *)

Definition bool_bit (b : bool) : Z := if b then 128 else 0.

Definition be32 (v : Z) : list Z :=
  [v / 2 ^ 24 mod 256; v / 2 ^ 16 mod 256; v / 2 ^ 8 mod 256; v mod 256].

Definition clientLength (n : Z) : list Z :=
  if n <=? 125 then [128 + n]
  else if n <=? 65535 then [128 + 126; n / 256 mod 256; n mod 256]
  else (128 + 127) :: be32 (n / 2 ^ 32) ++ be32 (n mod 2 ^ 32).

Fixpoint maskFrom (i : nat) (payload maskKey : list Z) : list Z :=
  match payload with
  | [] => []
  | p :: rest => Z.lxor p (nth (i mod 4) maskKey 0) :: maskFrom (S i) rest maskKey
  end.

Definition clientFrame (fin : bool) (op : Z) (maskKey payload : list Z) : list Z :=
  (bool_bit fin + op) :: clientLength (Z.of_nat (length payload))
    ++ maskKey ++ maskFrom 0 payload maskKey.

Definition is_byte (b : Z) : Prop := 0 <= b < 256.

(** ** Node's [crypto] hash and the base64 digest encoding

    [crypto.createHash("sha1")] is SHA-1 as FIPS 180-4 defines it, on bytes;
    [digest("base64")] is the RFC 4648 alphabet with [=] padding. *)

Module Crypto.

Definition w32 (x : Z) : Z := x mod 2 ^ 32.

Definition rotl (n x : Z) : Z :=
  w32 (Z.lor (Z.shiftl x n) (Z.shiftr x (32 - n))).

(** Message padding: a [0x80] byte, zeros up to 56 modulo 64, and the bit
    length on eight bytes. *)
Definition pad (msg : list Z) : list Z :=
  let n := Z.of_nat (length msg) in
  let zeros := Z.to_nat ((55 - n) mod 64) in
  let bits := 8 * n in
  msg ++ [128] ++ repeat 0 zeros
      ++ be32 (bits / 2 ^ 32) ++ be32 (bits mod 2 ^ 32).

Fixpoint words (n : nat) (bs : list Z) : list Z :=
  match n with
  | O => []
  | S n' => Buffer.readUInt32BE (firstn 4 bs) :: words n' (skipn 4 bs)
  end.

(** The message schedule, newest word first. *)
Fixpoint schedule (n : nat) (w : list Z) : list Z :=
  match n with
  | O => w
  | S n' =>
      let x := Z.lxor (Z.lxor (nth 2 w 0) (nth 7 w 0))
                      (Z.lxor (nth 13 w 0) (nth 15 w 0)) in
      schedule n' (rotl 1 x :: w)
  end.

Definition f (t b c d : Z) : Z :=
  if t <? 20 then Z.lor (Z.land b c) (Z.land (w32 (Z.lnot b)) d)
  else if t <? 40 then Z.lxor (Z.lxor b c) d
  else if t <? 60 then Z.lor (Z.lor (Z.land b c) (Z.land b d)) (Z.land c d)
  else Z.lxor (Z.lxor b c) d.

Definition k (t : Z) : Z :=
  if t <? 20 then 0x5a827999
  else if t <? 40 then 0x6ed9eba1
  else if t <? 60 then 0x8f1bbcdc
  else 0xca62c1d6.

Record state : Type := mkState { ha : Z; hb : Z; hc : Z; hd : Z; he : Z }.

Fixpoint rounds (t : Z) (ws : list Z) (s : state) : state :=
  match ws with
  | [] => s
  | w :: rest =>
      let temp := w32 (rotl 5 (ha s) + f t (hb s) (hc s) (hd s) + he s + k t + w) in
      rounds (t + 1) rest (mkState temp (ha s) (rotl 30 (hb s)) (hc s) (hd s))
  end.

Definition compress (h : state) (block : list Z) : state :=
  let ws := rev (schedule 64 (rev (words 16 block))) in
  let r := rounds 0 ws h in
  mkState (w32 (ha h + ha r)) (w32 (hb h + hb r)) (w32 (hc h + hc r))
          (w32 (hd h + hd r)) (w32 (he h + he r)).

Fixpoint blocks (n : nat) (bs : list Z) (h : state) : state :=
  match n with
  | O => h
  | S n' => blocks n' (skipn 64 bs) (compress h (firstn 64 bs))
  end.

Definition initial : state :=
  mkState 0x67452301 0xefcdab89 0x98badcfe 0x10325476 0xc3d2e1f0.

Definition sha1 (msg : list Z) : list Z :=
  let p := pad msg in
  let h := blocks (length p / 64) p initial in
  be32 (ha h) ++ be32 (hb h) ++ be32 (hc h) ++ be32 (hd h) ++ be32 (he h).

Definition alphabet : string :=
  "ABCDEFGHIJKLMNOPQRSTUVWXYZabcdefghijklmnopqrstuvwxyz0123456789+/".

Definition sextet (v : Z) : ascii :=
  match String.get (Z.to_nat (v mod 64)) alphabet with
  | Some c => c
  | None => "="%char
  end.

Fixpoint base64 (bs : list Z) : string :=
  match bs with
  | [] => EmptyString
  | [a] =>
      let v := a * 65536 in
      String (sextet (v / 262144)) (String (sextet (v / 4096)) "==")
  | [a; b] =>
      let v := a * 65536 + b * 256 in
      String (sextet (v / 262144)) (String (sextet (v / 4096))
        (String (sextet (v / 64)) "="))
  | a :: b :: c :: rest =>
      let v := a * 65536 + b * 256 + c in
      String (sextet (v / 262144)) (String (sextet (v / 4096))
        (String (sextet (v / 64)) (String (sextet v) (base64 rest))))
  end.

End Crypto.

(** The bytes [hash.update] sees for a string of one-byte characters. *)
Fixpoint bytes_of_string (s : string) : list Z :=
  match s with
  | EmptyString => []
  | String c rest => Z.of_N (N_of_ascii c) :: bytes_of_string rest
  end.

(** ** The handshake, lines 303-332 *)

Definition createSocketAccept (clientKey : string) : string :=
  Crypto.base64 (Crypto.sha1 (bytes_of_string (clientKey ++ WEB_SOCKET_MAGIC_STRING))).

Definition CRLF : string := String "013" (String "010" EmptyString).

(** [Array.prototype.join]. *)
Fixpoint join (sep : string) (parts : list string) : string :=
  match parts with
  | [] => EmptyString
  | [p] => p
  | p :: rest => p ++ sep ++ join sep rest
  end.

Definition prepareHandshakeHeader (clientKey : string) : string :=
  let acceptKey := createSocketAccept clientKey in
  let header := join CRLF
    [ "HTTP/1.1 101 Switching Protocols";
      "Upgrade: websocket";
      "Connection: Upgrade";
      "Sec-WebSocket-Accept: " ++ acceptKey;
      CRLF ]%string in
  header.

(** ** SHA-1 and base64 as their standards state them

    What "SHA-1" and "base64" mean in the statements about the accept
    token: FIPS 180-4 (sections 4.1.1, 4.2.1, 5.1.1, 5.2.1, 6.1.2) and
    RFC 4648 (section 4), written out independently of the executable model
    in [Crypto]. *)

Module FIPS180.

(** Section 3.2: rotate left on 32-bit words. *)
Definition ROTL (n x : Z) : Z :=
  Z.lor (Z.shiftl x n) (Z.shiftr x (32 - n)) mod 2 ^ 32.

(** Section 4.1.1: the functions [f_t]. *)
Definition Ch (x y z : Z) : Z :=
  Z.lxor (Z.land x y) (Z.land (Z.lnot x mod 2 ^ 32) z).

Definition Parity (x y z : Z) : Z := Z.lxor (Z.lxor x y) z.

Definition Maj (x y z : Z) : Z :=
  Z.lxor (Z.lxor (Z.land x y) (Z.land x z)) (Z.land y z).

Definition f (t : nat) : Z -> Z -> Z -> Z :=
  if (t <=? 19)%nat then Ch
  else if (t <=? 39)%nat then Parity
  else if (t <=? 59)%nat then Maj
  else Parity.

(** Section 4.2.1: the constants [K_t]. *)
Definition K (t : nat) : Z :=
  if (t <=? 19)%nat then 0x5a827999
  else if (t <=? 39)%nat then 0x6ed9eba1
  else if (t <=? 59)%nat then 0x8f1bbcdc
  else 0xca62c1d6.

(** Section 5.1.1: for a message of [l] bits, the number [k] of zero bits,
    the smallest non-negative solution of [l + 1 + k = 448 (mod 512)]. *)
Definition zeroBits (l : Z) : Z := (448 - (l + 1)) mod 512.

(** The 64-bit block that holds [l], most significant byte first. *)
Definition lengthBlock (l : Z) : list Z :=
  map (fun i => l / 2 ^ (8 * Z.of_nat i) mod 256) [7; 6; 5; 4; 3; 2; 1; 0]%nat.

(** The padded message, in bytes: the bit 1 and the first seven zero bits
    make the byte [0x80]; the remaining zero bits make whole bytes. *)
Definition padded (M : list Z) : list Z :=
  let l := 8 * Z.of_nat (length M) in
  M ++ [0x80] ++ repeat 0 (Z.to_nat ((zeroBits l - 7) / 8)) ++ lengthBlock l.

(** Section 5.2.1: word [t] of block [i], big-endian. *)
Definition word (p : list Z) (i t : nat) : Z :=
  let o := (64 * i + 4 * t)%nat in
  nth o p 0 * 2 ^ 24 + nth (o + 1) p 0 * 2 ^ 16
  + nth (o + 2) p 0 * 2 ^ 8 + nth (o + 3) p 0.

(** Section 6.1.2, step 1: the message schedule [W_0 .. W_(n-1)] of
    block [i]. *)
Fixpoint W (p : list Z) (i n : nat) : list Z :=
  match n with
  | O => []
  | S t =>
      let ws := W p i t in
      ws ++ [if (t <=? 15)%nat then word p i t
             else ROTL 1 (Z.lxor (Z.lxor (Z.lxor (nth (t - 3) ws 0)
                                                 (nth (t - 8) ws 0))
                                         (nth (t - 14) ws 0))
                                 (nth (t - 16) ws 0))]
  end.

(** The working variables [a .. e], also used for the hash value. *)
Record vars : Type := mkVars { va : Z; vb : Z; vc : Z; vd : Z; ve : Z }.

(** Step 3: one round. *)
Definition step (ws : list Z) (v : vars) (t : nat) : vars :=
  let T := (ROTL 5 (va v) + f t (vb v) (vc v) (vd v) + ve v + K t + nth t ws 0)
           mod 2 ^ 32 in
  mkVars T (va v) (ROTL 30 (vb v)) (vc v) (vd v).

(** Steps 1 to 4 for block [i]. *)
Definition hashBlock (p : list Z) (H : vars) (i : nat) : vars :=
  let v := fold_left (step (W p i 80)) (seq 0 80) H in
  mkVars ((va v + va H) mod 2 ^ 32) ((vb v + vb H) mod 2 ^ 32)
         ((vc v + vc H) mod 2 ^ 32) ((vd v + vd H) mod 2 ^ 32)
         ((ve v + ve H) mod 2 ^ 32).

(** Section 5.3.1: the initial hash value. *)
Definition H0 : vars :=
  mkVars 0x67452301 0xefcdab89 0x98badcfe 0x10325476 0xc3d2e1f0.

Definition wordBytes (w : Z) : list Z :=
  map (fun i => w / 2 ^ (8 * Z.of_nat i) mod 256) [3; 2; 1; 0]%nat.

(** The message digest: the five words of the last hash value. *)
Definition sha1 (M : list Z) : list Z :=
  let p := padded M in
  let H := fold_left (hashBlock p) (seq 0 (length p / 64)) H0 in
  flat_map wordBytes [va H; vb H; vc H; vd H; ve H].

End FIPS180.

Module RFC4648.

(** Table 1: the base 64 alphabet, indexed by value. *)
Definition alphabet : list ascii :=
  list_ascii_of_string
    "ABCDEFGHIJKLMNOPQRSTUVWXYZabcdefghijklmnopqrstuvwxyz0123456789+/".

(** The eight bits of an input byte, most significant first. *)
Definition bitsOfByte (x : Z) : list bool :=
  map (fun i => Z.testbit x (Z.of_nat i)) [7; 6; 5; 4; 3; 2; 1; 0]%nat.

(** The number a group of bits stands for. *)
Definition valueOf (bits : list bool) : Z :=
  fold_left (fun acc (b : bool) => 2 * acc + (if b then 1 else 0)) bits 0.

(** The first [k] 6-bit groups of a quantum, the last one completed with
    zero bits, each translated into a character of the alphabet. *)
Definition sixes (bits : list bool) (k : nat) : list ascii :=
  map (fun j => nth (Z.to_nat (valueOf (firstn 6 (skipn (6 * j)
                                     (bits ++ repeat false 4)))))
                    alphabet "="%char)
      (seq 0 k).

(** Section 4: 24-bit groups become four characters; a final quantum of 8
    bits becomes two characters and two [=], one of 16 bits three
    characters and one [=]. *)
Fixpoint encodeChars (bs : list Z) : list ascii :=
  match bs with
  | [] => []
  | [x] => sixes (bitsOfByte x) 2 ++ ["="; "="]%char
  | [x; y] => sixes (bitsOfByte x ++ bitsOfByte y) 3 ++ ["="]%char
  | x :: y :: z :: rest =>
      sixes (bitsOfByte x ++ bitsOfByte y ++ bitsOfByte z) 4 ++ encodeChars rest
  end.

Definition encode (bs : list Z) : string := string_of_list_ascii (encodeChars bs).

End RFC4648.

(** The hash value of the executable model, read as the working variables
    of the standard. *)
Definition toVars (s : Crypto.state) : FIPS180.vars :=
  FIPS180.mkVars (Crypto.ha s) (Crypto.hb s) (Crypto.hc s) (Crypto.hd s)
                 (Crypto.he s).

(** ** Protocol vocabulary of the statements *)

(** An unmasked control frame with a short payload (RFC 6455, section 5.5):
    FIN and the opcode, the payload length, the payload. *)
Definition controlFrame (op : Z) (payload : list Z) : list Z :=
  [128 + op; Z.of_nat (length payload)] ++ payload.

(** The body of a Close frame that carries only a status code. *)
Definition closeBody (code : Z) : list Z := [code / 256; code mod 256].

(** The reaction RFC 6455 prescribes for a protocol error: a Close frame
    with status 1002 goes out and the connection is ended. *)
Definition protocolErrorTeardown (before after : socket) : Prop :=
  wire after = wire before ++ controlFrame OPCODES.CLOSE (closeBody 1002)
  /\ ended after = true.

(** The opcodes RFC 6455 defines. *)
Definition knownOpcode (op : Z) : bool :=
  (op =? OPCODES.CONTINUATION) || (op =? OPCODES.TEXT) || (op =? OPCODES.BINARY)
  || (op =? OPCODES.CLOSE) || (op =? OPCODES.PING) || (op =? OPCODES.PONG).

(** [Buffer.toString("utf8")] on the inputs of the examples, which are
    well-formed UTF-8. *)
Definition utf8_id (b : list Z) : list Z := b.

(** ** Properties of handler computations *)

(** A computation that ignores the socket. *)
Definition pureM {A} (m : M A) : Prop := exists o, forall s, m s = (s, o).

(** A computation that never falls through with a value. *)
Definition neverDone {A} (m : M A) : Prop :=
  forall s s' a, m s <> (s', Done a).

(** A computation whose successful runs are unchanged by bytes that arrive
    behind the ones it read. *)
Definition stable {A} (m : M A) : Prop :=
  forall s s' a c,
    m s = (s', Done a) -> m (push c s) = (push c s', Done a).

(** A computation that only ever removes bytes from the front of the
    buffer. *)
Definition consuming {A} (m : M A) : Prop :=
  forall s s' o, m s = (s', o) -> exists used, readable s = used ++ readable s'.

(** ** The upgrade handler, lines 95-116 *)

(** The text JavaScript's [+] gives for the header value: the key itself,
    or ["undefined"] when the request carries no [Sec-WebSocket-Key]. *)
Definition keyText (webSocketKey : option string) : string :=
  match webSocketKey with
  | Some key => key
  | None => "undefined"%string
  end.

(** The handshake response goes out in one write; the key is not checked.
    The console lines of the upgrade and the listener registrations leave
    no trace on the socket record. *)
Definition onSocketUpgrade (webSocketKey : option string) : M unit :=
  let header := prepareHandshakeHeader (keyText webSocketKey) in
  socket_write (bytes_of_string header).

(** ** What a handler run may change *)

(** [after] comes from [before] by taking bytes off the front of the buffer,
    appending to the wire and to the console, and possibly ending the
    socket. *)
Definition extends (before after : socket) : Prop :=
  (exists used, readable before = used ++ readable after)
  /\ (exists sent, wire after = wire before ++ sent)
  /\ (exists lines, console after = console before ++ lines)
  /\ (ended before = true -> ended after = true).

Definition monotone {A} (m : M A) : Prop :=
  forall s s' o, m s = (s', o) -> extends s s'.

(** * Properties *)

(** ** Bytes and bits *)

(** A decidable property of small numbers is settled by running it on each
    of them. *)
Lemma below_cases (n : nat) (P : Z -> bool) :
  forallb P (map Z.of_nat (seq 0 n)) = true ->
  forall z, 0 <= z < Z.of_nat n -> P z = true.
Proof.
  intros Hall z Hz.
  rewrite forallb_forall in Hall.
  apply Hall.
  rewrite <- (Z2Nat.id z) by lia.
  apply in_map, in_seq. lia.
Qed.

Lemma byte_cases (P : Z -> bool) :
  forallb P (map Z.of_nat (seq 0 256)) = true ->
  forall b, is_byte b -> P b = true.
Proof. intros Hall b Hb. apply (below_cases 256 P Hall). exact Hb. Qed.

Lemma mask_bit_of_byte b :
  is_byte b -> JS.toBoolean (Z.land b 0x80) = (128 <=? b).
Proof.
  intros Hb.
  pose proof (byte_cases
    (fun b => Bool.eqb (JS.toBoolean (Z.land b 0x80)) (128 <=? b))) as H.
  specialize (H eq_refl b Hb). now apply Bool.eqb_prop in H.
Qed.

Lemma toUint8_byte b : is_byte b -> JS.toUint8 b = b.
Proof.
  intros Hb. unfold JS.toUint8.
  change 255 with (Z.ones 8). rewrite Z.land_ones by lia.
  apply Z.mod_small. exact Hb.
Qed.

Lemma lxor_cancel p k : Z.lxor (Z.lxor p k) k = p.
Proof. now rewrite Z.lxor_assoc, Z.lxor_nilpotent, Z.lxor_0_r. Qed.

Lemma toInt32_small x : 0 <= x < 2 ^ 31 -> JS.toInt32 x = x.
Proof.
  intros Hx. unfold JS.toInt32.
  rewrite Z.mod_small by lia.
  destruct (2 ^ 31 <=? x) eqn:E; [apply Z.leb_le in E; lia | reflexivity].
Qed.

Lemma shl_32 x : JS.shl x 32 = JS.toInt32 x.
Proof.
  unfold JS.shl. change (Z.land 32 31) with 0. rewrite Z.shiftl_0_r.
  unfold JS.toInt32 at 1.
  assert (H : JS.toInt32 x mod 2 ^ 32 = x mod 2 ^ 32).
  { unfold JS.toInt32. destruct (2 ^ 31 <=? x mod 2 ^ 32).
    - rewrite <- (Z.mod_add _ 1) by lia.
      replace (x mod 2 ^ 32 - 2 ^ 32 + 1 * 2 ^ 32) with (x mod 2 ^ 32) by lia.
      apply Z.mod_mod. lia.
    - apply Z.mod_mod. lia. }
  rewrite H. reflexivity.
Qed.

Lemma readUInt32BE_be32 v :
  0 <= v < 2 ^ 32 -> Buffer.readUInt32BE (be32 v) = v.
Proof.
  intros Hv. unfold Buffer.readUInt32BE, be32. cbn [nth].
  change (2 ^ 24) with (256 * 256 * 256).
  change (2 ^ 16) with (256 * 256).
  change (2 ^ 8) with 256.
  change (2 ^ 32) with (256 * 256 * 256 * 256) in Hv.
  pose proof (Z.div_mod v 256).
  pose proof (Z.div_mod (v / 256) 256).
  pose proof (Z.div_mod (v / 256 / 256) 256).
  rewrite <- !Z.div_div by lia.
  assert (v / 256 / 256 / 256 < 256).
  { repeat (apply Z.div_lt_upper_bound; [lia|]). lia. }
  assert (0 <= v / 256 / 256 / 256).
  { repeat apply Z.div_pos; lia. }
  rewrite (Z.mod_small (v / 256 / 256 / 256)) by lia.
  lia.
Qed.

Lemma readUInt16BE_writeUInt16BE v :
  0 <= v <= 65535 -> Buffer.readUInt16BE (Buffer.writeUInt16BE v) = v.
Proof.
  intros Hv. unfold Buffer.readUInt16BE, Buffer.writeUInt16BE. cbn [nth].
  pose proof (Z.div_mod v 256).
  assert (v / 256 < 256) by (apply Z.div_lt_upper_bound; lia).
  assert (0 <= v / 256) by (apply Z.div_pos; lia).
  rewrite (Z.mod_small (v / 256)) by lia.
  lia.
Qed.

(** ** Running the handler monad *)

Lemma bind_Done {A B} (m : M A) (k : A -> M B) s s' a :
  m s = (s', Done a) -> bind m k s = k a s'.
Proof. intros H. unfold bind. now rewrite H. Qed.

Lemma bind_Return {A B} (m : M A) (k : A -> M B) s s' :
  m s = (s', Return) -> bind m k s = (s', Return).
Proof. intros H. unfold bind. now rewrite H. Qed.

(** A read that finds its bytes at the front of the buffer. *)
Lemma socket_read_app (a r : list Z) (s : socket) (n : Z) :
  n = Z.of_nat (length a) -> 0 < n <= MAX_HWM ->
  socket_read n (set_readable (a ++ r) s) = (set_readable r s, Done (Some a)).
Proof.
  intros -> Hpos. unfold socket_read. cbn [readable set_readable].
  replace (MAX_HWM <? Z.of_nat (length a)) with false
    by (symmetry; apply Z.ltb_ge; lia).
  rewrite length_app, Nat2Z.id.
  replace (Z.of_nat (length a) <=? 0) with false by (symmetry; apply Z.leb_gt; lia).
  replace (Z.of_nat (length a + length r) <? Z.of_nat (length a)) with false
    by (symmetry; apply Z.ltb_ge; lia).
  cbn [orb].
  rewrite skipn_app, firstn_app, Nat.sub_diag, firstn_all, skipn_all.
  cbn [firstn skipn app]. rewrite app_nil_r. reflexivity.
Qed.

(** A read that asks for nothing, or for more than is buffered. *)
Lemma socket_read_null (n : Z) (s : socket) :
  n <= MAX_HWM ->
  n <= 0 \/ Z.of_nat (length (readable s)) < n ->
  socket_read n s = (s, Done None).
Proof.
  intros Hmax H. unfold socket_read.
  replace (MAX_HWM <? n) with false by (symmetry; apply Z.ltb_ge; lia).
  destruct (n <=? 0) eqn:E1; [reflexivity|].
  destruct (Z.of_nat (length (readable s)) <? n) eqn:E2; [reflexivity|].
  apply Z.leb_gt in E1. apply Z.ltb_ge in E2. lia.
Qed.

(** ** The length indicator (line 156) *)

(** C10.  For a second frame byte [b], [b - 128] equals the 7-bit field
    [b mod 128] exactly when the MASK bit of [b] is set.  With the MASK bit
    clear the indicator is negative, so the handler takes the literal-length
    branch ([<= 125]) and the message length is that negative number, read
    without touching the socket. *)
Theorem lengthIndicator_correct_iff_masked (b : Z) :
  is_byte b ->
  (lengthIndicatorInBits b = b mod 128 <-> JS.toBoolean (Z.land b 0x80) = true)
  /\ (JS.toBoolean (Z.land b 0x80) = false ->
      lengthIndicatorInBits b < 0
      /\ (lengthIndicatorInBits b <=? SEVEN_BIT_INTIGER_MARKER) = true
      /\ forall s, readMessageLength (lengthIndicatorInBits b) s
                   = (s, Done (lengthIndicatorInBits b))).
Proof.
  intros Hb. rewrite (mask_bit_of_byte b Hb).
  unfold lengthIndicatorInBits, FIRST_BIT, is_byte in *.
  split.
  - rewrite Z.leb_le. split; intros H.
    + pose proof (Z.mod_pos_bound b 128). lia.
    + rewrite <- (Z.mod_add b (-1) 128) by lia.
      rewrite Z.mod_small; lia.
  - intros H. apply Z.leb_gt in H.
    assert (Hle : (b - 128 <=? SEVEN_BIT_INTIGER_MARKER) = true).
    { apply Z.leb_le. unfold SEVEN_BIT_INTIGER_MARKER. lia. }
    repeat split; [lia | exact Hle |].
    intros s. unfold readMessageLength. rewrite Hle. reflexivity.
Qed.

Lemma lengthIndicator_correct_iff_masked_witness :
  is_byte 5
  /\ lengthIndicatorInBits 5 = -123
  /\ readMessageLength (lengthIndicatorInBits 5) fresh = (fresh, Done (-123)).
Proof.
  assert (H5 : is_byte 5) by (unfold is_byte; lia).
  destruct (lengthIndicator_correct_iff_masked 5 H5) as [_ Hclear].
  destruct (Hclear eq_refl) as (_ & _ & Hread).
  split; [exact H5 | split; [reflexivity | exact (Hread fresh)]].
Defined.

(** ** The 64-bit extended length (lines 167-172) *)

(** What line 171 computes from the two halves: the shift count 32 is taken
    modulo 32, so the upper half is added as a signed 32-bit number instead
    of being scaled by [2^32]. *)
Lemma readMessageLength_64 (upper lower : Z) (rest : list Z) (s : socket) :
  0 <= upper < 2 ^ 32 -> 0 <= lower < 2 ^ 32 ->
  readMessageLength SIXTYFOUR_BIT_INTIGER_MARKER
      (set_readable (be32 upper ++ be32 lower ++ rest) s)
  = (set_readable rest s, Done (JS.toInt32 upper + lower)).
Proof.
  intros Hu Hl.
  unfold readMessageLength.
  change (SIXTYFOUR_BIT_INTIGER_MARKER <=? SEVEN_BIT_INTIGER_MARKER) with false.
  change (SIXTYFOUR_BIT_INTIGER_MARKER =? SIXTEEN_BIT_INTIGER_MARKER) with false.
  change (SIXTYFOUR_BIT_INTIGER_MARKER =? SIXTYFOUR_BIT_INTIGER_MARKER) with true.
  cbv iota.
  assert (H4 : 0 < 4 <= MAX_HWM) by (unfold MAX_HWM; lia).
  rewrite (bind_Done _ _ _ _ _ (socket_read_app (be32 upper) _ s 4 eq_refl H4)).
  unfold deref at 1. rewrite (bind_Done _ _ _ _ _ eq_refl).
  rewrite (bind_Done _ _ _ _ _ (socket_read_app (be32 lower) _ s 4 eq_refl H4)).
  unfold deref at 1. rewrite (bind_Done _ _ _ _ _ eq_refl).
  rewrite shl_32, !readUInt32BE_be32 by assumption.
  reflexivity.
Qed.

Lemma length64_exact_iff (upper lower : Z) :
  0 <= upper < 2 ^ 32 ->
  (JS.shl upper 32 + lower = upper * 2 ^ 32 + lower <-> upper = 0).
Proof.
  intros Hu. rewrite shl_32. unfold JS.toInt32.
  rewrite Z.mod_small by lia.
  change (2 ^ 32) with 4294967296 in *. change (2 ^ 31) with 2147483648.
  destruct (2147483648 <=? upper) eqn:E;
    [apply Z.leb_le in E | apply Z.leb_gt in E]; lia.
Qed.

(** C2.  The eight length bytes [00 00 00 01 00 00 00 00] encode [2^32]; the
    handler computes [1]. *)
Theorem readMessageLength_64_shift_defect :
  readMessageLength SIXTYFOUR_BIT_INTIGER_MARKER
      (set_readable [0; 0; 0; 1; 0; 0; 0; 0] fresh)
  = (fresh, Done 1)
  /\ 1 <> 1 * 2 ^ 32 + 0.
Proof. split; [reflexivity | lia]. Qed.

(** ** The handshake *)

Lemma bytes_of_string_app (a b : string) :
  bytes_of_string (a ++ b) = bytes_of_string a ++ bytes_of_string b.
Proof. induction a as [|c a IH]; cbn; [reflexivity | now rewrite IH]. Qed.

(** Known answers of the hash and of the encoding (FIPS 180-4 appendix A,
    RFC 4648 section 10). *)
Example sha1_abc :
  Crypto.sha1 (bytes_of_string "abc")
  = [0xa9; 0x99; 0x3e; 0x36; 0x47; 0x06; 0x81; 0x6a; 0xba; 0x3e;
     0x25; 0x71; 0x78; 0x50; 0xc2; 0x6c; 0x9c; 0xd0; 0xd8; 0x9d].
Proof. vm_compute. reflexivity. Qed.

Example sha1_two_blocks :
  Crypto.sha1 (bytes_of_string
    "abcdbcdecdefdefgefghfghighijhijkijkljklmklmnlmnomnopnopq")
  = [0x84; 0x98; 0x3e; 0x44; 0x1c; 0x3b; 0xd2; 0x6e; 0xba; 0xae;
     0x4a; 0xa1; 0xf9; 0x51; 0x29; 0xe5; 0xe5; 0x46; 0x70; 0xf1].
Proof. vm_compute. reflexivity. Qed.

Example base64_foobar :
  Crypto.base64 (bytes_of_string "foobar") = "Zm9vYmFy"%string
  /\ Crypto.base64 (bytes_of_string "fooba") = "Zm9vYmE="%string
  /\ Crypto.base64 (bytes_of_string "foob") = "Zm9vYg=="%string.
Proof. repeat split; vm_compute; reflexivity. Qed.

Lemma append_assoc (a b c : string) : ((a ++ b) ++ c = a ++ (b ++ c))%string.
Proof. induction a as [|x a IH]; cbn; [reflexivity | now rewrite IH]. Qed.

Lemma bytes_of_CRLF : bytes_of_string CRLF = [13; 10].
Proof. reflexivity. Qed.

(** C9.  The handshake response is, byte for byte, the status line, the two
    upgrade headers and the accept header with the computed token, each
    ended by the bytes 13 10 (CR LF), and one more 13 10 for the blank line
    that closes the header block. *)
Theorem prepareHandshakeHeader_exact (clientKey : string) :
  bytes_of_string (prepareHandshakeHeader clientKey)
  = bytes_of_string "HTTP/1.1 101 Switching Protocols" ++ [13; 10]
    ++ bytes_of_string "Upgrade: websocket" ++ [13; 10]
    ++ bytes_of_string "Connection: Upgrade" ++ [13; 10]
    ++ bytes_of_string "Sec-WebSocket-Accept: "
    ++ bytes_of_string (createSocketAccept clientKey) ++ [13; 10]
    ++ [13; 10]
  /\ prepareHandshakeHeader clientKey
     = ("HTTP/1.1 101 Switching Protocols"
        ++ String "013" (String "010" EmptyString)
        ++ "Upgrade: websocket"
        ++ String "013" (String "010" EmptyString)
        ++ "Connection: Upgrade"
        ++ String "013" (String "010" EmptyString)
        ++ "Sec-WebSocket-Accept: " ++ createSocketAccept clientKey
        ++ String "013" (String "010" EmptyString)
        ++ String "013" (String "010" EmptyString))%string.
Proof.
  assert (Htext : prepareHandshakeHeader clientKey
     = ("HTTP/1.1 101 Switching Protocols"
        ++ String "013" (String "010" EmptyString)
        ++ "Upgrade: websocket"
        ++ String "013" (String "010" EmptyString)
        ++ "Connection: Upgrade"
        ++ String "013" (String "010" EmptyString)
        ++ "Sec-WebSocket-Accept: " ++ createSocketAccept clientKey
        ++ String "013" (String "010" EmptyString)
        ++ String "013" (String "010" EmptyString))%string).
  { unfold prepareHandshakeHeader.
    generalize (createSocketAccept clientKey) as token. intros token.
    cbn [join]. rewrite !append_assoc. reflexivity. }
  split; [| exact Htext].
  rewrite Htext.
  generalize (createSocketAccept clientKey) as token. intros token.
  rewrite !bytes_of_string_app. reflexivity.
Qed.

(** ** The outbound length encoding (lines 225-243) *)

Lemma lengthEncoding_small (n : Z) (s : socket) :
  n <= 125 -> lengthEncoding n s = (s, Done (n, [])).
Proof.
  intros H. unfold lengthEncoding, SEVEN_BIT_INTIGER_MARKER.
  replace (n <=? 125) with true by (symmetry; apply Z.leb_le; lia).
  reflexivity.
Qed.

Lemma lengthEncoding_medium (n : Z) (s : socket) :
  126 <= n <= 65535 ->
  lengthEncoding n s = (s, Done (126, [n / 256; n mod 256])).
Proof.
  intros H. unfold lengthEncoding, SEVEN_BIT_INTIGER_MARKER.
  replace (n <=? 125) with false by (symmetry; apply Z.leb_gt; lia).
  replace (n <=? 0xffff) with true by (symmetry; apply Z.leb_le; lia).
  unfold Buffer.writeUInt16BE, SIXTEEN_BIT_INTIGER_MARKER.
  rewrite (Z.mod_small (n / 256)); [reflexivity|].
  split; [apply Z.div_pos; lia | apply Z.div_lt_upper_bound; lia].
Qed.

Lemma lengthEncoding_large (n : Z) (s : socket) :
  65536 <= n < 2 ^ 32 ->
  lengthEncoding n s = (s, Done (127, be32 0 ++ be32 n)).
Proof.
  intros H. unfold lengthEncoding, SEVEN_BIT_INTIGER_MARKER.
  replace (n <=? 125) with false by (symmetry; apply Z.leb_gt; lia).
  replace (n <=? 0xffff) with false by (symmetry; apply Z.leb_gt; lia).
  unfold Buffer.writeUInt32BE.
  replace ((0 <=? n) && (n <? 2 ^ 32)) with true.
  - reflexivity.
  - symmetry. apply andb_true_iff. split; [apply Z.leb_le | apply Z.ltb_lt]; lia.
Qed.

(** Above [2^32 - 1] the 32-bit writer refuses the value and nothing is
    sent. *)
Lemma lengthEncoding_out_of_range (n : Z) (s : socket) :
  2 ^ 32 <= n -> lengthEncoding n s = (s, Throw).
Proof.
  intros H. unfold lengthEncoding, SEVEN_BIT_INTIGER_MARKER.
  replace (n <=? 125) with false by (symmetry; apply Z.leb_gt; lia).
  replace (n <=? 0xffff) with false by (symmetry; apply Z.leb_gt; lia).
  unfold Buffer.writeUInt32BE.
  replace (n <? 2 ^ 32) with false by (symmetry; apply Z.ltb_ge; lia).
  rewrite andb_false_r. reflexivity.
Qed.

Lemma sendMessage_wire (message : list Z) (op : Z) (s : socket) second ext :
  ended s = false ->
  lengthEncoding (Z.of_nat (length message)) s = (s, Done (second, ext)) ->
  sendMessage message op s
  = (mkSocket (readable s)
              (wire s ++ [JS.toUint8 (Z.lor 0x80 op); JS.toUint8 second] ++ ext ++ message)
              false
              (console s ++ [LogSent message (Z.of_nat (length message))]),
     Done tt).
Proof.
  intros Hopen Henc. unfold sendMessage.
  rewrite (bind_Done _ _ _ _ _ Henc).
  unfold bind, socket_write, console_log. cbn. rewrite Hopen. cbn.
  rewrite <- !app_assoc. reflexivity.
Qed.

(** C8.  The frame [sendMessage] writes carries the shortest length form
    that holds the payload length: the length itself up to 125; the marker
    126 and two big-endian bytes from 126 to 65535; the marker 127 and two
    big-endian 32-bit halves (the upper one zero) above, whose combined
    value is the payload length.  A JavaScript string encodes to fewer than
    [2^32] bytes, which is the range of the lower half. *)
Theorem sendMessage_minimal_length (message : list Z) (op : Z) (s : socket) :
  Z.of_nat (length message) < 2 ^ 32 ->
  ended s = false ->
  exists second ext,
    sendMessage message op s
    = (mkSocket (readable s)
                (wire s ++ [JS.toUint8 (Z.lor 0x80 op); second] ++ ext ++ message)
                false
                (console s ++ [LogSent message (Z.of_nat (length message))]),
       Done tt)
    /\ (Z.of_nat (length message) <= 125 ->
        second = Z.of_nat (length message) /\ ext = [])
    /\ (126 <= Z.of_nat (length message) <= 65535 ->
        second = 126
        /\ ext = [Z.of_nat (length message) / 256; Z.of_nat (length message) mod 256]
        /\ Buffer.readUInt16BE ext = Z.of_nat (length message))
    /\ (65536 <= Z.of_nat (length message) ->
        second = 127
        /\ ext = be32 0 ++ be32 (Z.of_nat (length message))
        /\ Buffer.readUInt32BE (firstn 4 ext) * 2 ^ 32
           + Buffer.readUInt32BE (skipn 4 ext) = Z.of_nat (length message)).
Proof.
  intros Hrange Hopen.
  set (n := Z.of_nat (length message)) in *.
  assert (Hn : 0 <= n) by (subst n; lia).
  destruct (Z_le_gt_dec n 125) as [Hs | Hs];
    [| destruct (Z_le_gt_dec n 65535) as [Hm | Hm]].
  - exists n, []. split; [| repeat split; intros; try lia].
    rewrite (sendMessage_wire message op s n []); auto.
    + rewrite (toUint8_byte n) by (unfold is_byte; lia). reflexivity.
    + apply lengthEncoding_small. exact Hs.
  - exists 126, [n / 256; n mod 256]. split; [| repeat split; intros; try lia].
    + rewrite (sendMessage_wire message op s 126 [n / 256; n mod 256]); auto.
      apply lengthEncoding_medium. lia.
    + unfold Buffer.readUInt16BE. cbn [nth].
      pose proof (Z.div_mod n 256). lia.
  - exists 127, (be32 0 ++ be32 n). split; [| repeat split; intros; try lia].
    + rewrite (sendMessage_wire message op s 127 (be32 0 ++ be32 n)); auto.
      apply lengthEncoding_large. lia.
    + change (firstn 4 (be32 0 ++ be32 n)) with (be32 0).
      change (skipn 4 (be32 0 ++ be32 n)) with (be32 n).
      rewrite !readUInt32BE_be32 by lia. lia.
Qed.

Lemma sendMessage_minimal_length_witness :
  exists second ext,
    sendMessage (repeat 120 300) 1 fresh
    = (mkSocket [] ([129; second] ++ ext ++ repeat 120 300) false
                [LogSent (repeat 120 300) 300], Done tt)
    /\ second = 126 /\ ext = [1; 44].
Proof.
  destruct (sendMessage_minimal_length (repeat 120 300) 1 fresh)
    as (second & ext & Hrun & _ & Hmid & _).
  - vm_compute. reflexivity.
  - reflexivity.
  - exists second, ext. destruct Hmid as (H2 & Hext & _).
    + vm_compute. split; discriminate.
    + split; [exact Hrun | split; [exact H2 | exact Hext]].
Defined.

(** ** Reading one complete masked frame *)

Lemma first_byte_fields (fin : bool) (op : Z) :
  0 <= op < 16 ->
  JS.toBoolean (Z.land (bool_bit fin + op) 0x80) = fin
  /\ Z.land (bool_bit fin + op) 0x0f = op.
Proof.
  intros Hop.
  pose proof (below_cases 16
    (fun op => Bool.eqb (JS.toBoolean (Z.land (bool_bit fin + op) 0x80)) fin
               && (Z.land (bool_bit fin + op) 0x0f =? op))) as H.
  assert (Hall : forallb
    (fun op => Bool.eqb (JS.toBoolean (Z.land (bool_bit fin + op) 0x80)) fin
               && (Z.land (bool_bit fin + op) 0x0f =? op))
    (map Z.of_nat (seq 0 16)) = true) by (destruct fin; reflexivity).
  specialize (H Hall op Hop). apply andb_true_iff in H. destruct H as [H1 H2].
  split; [now apply Bool.eqb_prop in H1 | now apply Z.eqb_eq in H2].
Qed.

Lemma maskFrom_length (payload key : list Z) (i : nat) :
  length (maskFrom i payload key) = length payload.
Proof.
  revert i. induction payload as [|p payload IH]; intros i; cbn;
    [reflexivity | now rewrite IH].
Qed.

(** Unmasking undoes masking: XOR with the same key byte twice. *)
Lemma unmaskFrom_maskFrom (payload key : list Z) (i : nat) :
  Forall is_byte payload ->
  unmaskFrom i (maskFrom i payload key) key = payload.
Proof.
  intros Hb. revert i.
  induction Hb as [|p payload Hp _ IH]; intros i; cbn; [reflexivity|].
  rewrite lxor_cancel, (toUint8_byte p Hp), IH. reflexivity.
Qed.

Lemma bind_assoc {A B C} (m : M A) (k1 : A -> M B) (k2 : B -> M C) s :
  bind (bind m k1) k2 s = bind m (fun a => bind (k1 a) k2) s.
Proof. unfold bind. destruct (m s) as [s' [a| |]]; reflexivity. Qed.

Ltac read_front a :=
  erewrite (bind_Done (socket_read _));
  [| apply (socket_read_app a);
     [try reflexivity | try (unfold MAX_HWM in *; cbn [length]; lia)] ].

(** The second byte and the extended length of a client frame, as the
    handler reads them. *)
Lemma read_clientLength {B} (L : Z) (rest : list Z) (s : socket)
      (K : Z -> Z -> M B) :
  0 <= L < 2 ^ 32 ->
  exists secondByte,
    bind (socket_read 1) (fun sb =>
      bind (destructure1 sb) (fun secondByte =>
        bind (readMessageLength (lengthIndicatorInBits secondByte)) (fun len =>
          K secondByte len)))
      (set_readable (clientLength L ++ rest) s)
    = K secondByte L (set_readable rest s)
    /\ JS.toBoolean (Z.land secondByte 0x80) = true.
Proof.
  intros HL. unfold clientLength.
  destruct (L <=? 125) eqn:E1; [| destruct (L <=? 65535) eqn:E2].
  - apply Z.leb_le in E1. exists (128 + L). split.
    + read_front [128 + L]. cbn [destructure1 nth].
      rewrite (bind_Done _ _ _ _ _ eq_refl).
      unfold lengthIndicatorInBits, FIRST_BIT, readMessageLength,
        SEVEN_BIT_INTIGER_MARKER.
      replace (128 + L - 128) with L by lia.
      replace (L <=? 125) with true by (symmetry; apply Z.leb_le; lia).
      rewrite (bind_Done _ _ _ _ _ eq_refl). reflexivity.
    + rewrite mask_bit_of_byte by (unfold is_byte; lia).
      apply Z.leb_le. lia.
  - apply Z.leb_gt in E1. apply Z.leb_le in E2. exists 254. split; [|reflexivity].
    change ([128 + 126; L / 256 mod 256; L mod 256] ++ rest)
      with ([254] ++ Buffer.writeUInt16BE L ++ rest).
    read_front [254]. cbn [destructure1 nth].
    rewrite (bind_Done _ _ _ _ _ eq_refl).
    change (readMessageLength (lengthIndicatorInBits 254))
      with (b <- socket_read 2 ;; bs <- deref b ;; ret (Buffer.readUInt16BE bs)).
    rewrite bind_assoc.
    read_front (Buffer.writeUInt16BE L). cbn [deref].
    rewrite bind_assoc.
    rewrite (bind_Done _ _ _ _ _ eq_refl), (bind_Done _ _ _ _ _ eq_refl).
    rewrite readUInt16BE_writeUInt16BE by lia. reflexivity.
  - apply Z.leb_gt in E2. exists 255. split; [|reflexivity].
    change ((128 + 127 :: be32 (L / 2 ^ 32) ++ be32 (L mod 2 ^ 32)) ++ rest)
      with ([255] ++ (be32 (L / 2 ^ 32) ++ be32 (L mod 2 ^ 32)) ++ rest).
    rewrite <- app_assoc.
    read_front [255]. cbn [destructure1 nth].
    rewrite (bind_Done _ _ _ _ _ eq_refl).
    change (lengthIndicatorInBits 255) with SIXTYFOUR_BIT_INTIGER_MARKER.
    rewrite Z.div_small, Z.mod_small by lia.
    erewrite (bind_Done (readMessageLength _));
      [| apply readMessageLength_64; lia].
    rewrite toInt32_small by lia. reflexivity.
Qed.

(** A complete masked frame with a non-empty payload at the front of the
    buffer is read off it and unmasked. *)
Lemma readFrame_clientFrame (fin : bool) (op : Z) (key payload rest : list Z)
      (s : socket) :
  0 <= op < 16 ->
  length key = 4%nat ->
  Forall is_byte payload ->
  0 < Z.of_nat (length payload) <= MAX_HWM ->
  readFrame (set_readable (clientFrame fin op key payload ++ rest) s)
  = (set_readable rest s,
     Done (mkFrame fin op true (Z.of_nat (length payload)) payload)).
Proof.
  intros Hop Hkey Hbytes HL.
  destruct (first_byte_fields fin op Hop) as [Hfin Hopc].
  unfold readFrame, clientFrame.
  change ((bool_bit fin + op
           :: clientLength (Z.of_nat (length payload))
              ++ key ++ maskFrom 0 payload key) ++ rest)
    with ([bool_bit fin + op]
          ++ (clientLength (Z.of_nat (length payload))
              ++ key ++ maskFrom 0 payload key) ++ rest).
  rewrite <- !app_assoc.
  read_front [bool_bit fin + op]. cbn [nth]. unfold readFrameAfter.
  rewrite Hfin, Hopc.
  match goal with
  | |- bind _ (fun sb => bind _ (fun sec => bind _ (fun len => @?K sec len))) _ = _ =>
      destruct (read_clientLength (Z.of_nat (length payload))
                  (key ++ maskFrom 0 payload key ++ rest) s K) as (sec & Hrun & Hmask);
        [unfold MAX_HWM in HL; lia | rewrite Hrun]
  end.
  cbv beta. rewrite Hmask.
  read_front key; [| rewrite Hkey; reflexivity].
  read_front (maskFrom 0 payload key); [| now rewrite maskFrom_length].
  destruct payload as [|p payload]; [cbn in HL; lia|].
  change (unmask (maskFrom 0 (p :: payload) key) (Some key))
    with (@ret (list Z) (unmaskFrom 0 (maskFrom 0 (p :: payload) key) key)).
  rewrite (bind_Done _ _ _ _ _ eq_refl).
  rewrite unmaskFrom_maskFrom by assumption. reflexivity.
Qed.

(** ** The dispatch on the opcode (lines 197-208) *)

Section Dispatch.

Variable toStringUtf8 : list Z -> list Z.

(** Only Text, Close and Ping have a branch; every other opcode falls
    through after the log line. *)
Lemma handleFrame_unhandled (f : frame) (s : socket) :
  opcode f <> OPCODES.TEXT -> opcode f <> OPCODES.CLOSE ->
  opcode f <> OPCODES.PING ->
  handleFrame toStringUtf8 f s
  = (mkSocket (readable s) (wire s) (ended s)
       (console s ++ [LogReceived (toStringUtf8 (decoded f)) (messageLength f) (opcode f)]),
     Done tt).
Proof.
  intros H1 H8 H9. unfold handleFrame.
  rewrite (bind_Done _ _ _ _ _ eq_refl).
  apply Z.eqb_neq in H1, H8, H9. rewrite H1, H8, H9. reflexivity.
Qed.

Lemma handleFrame_close (f : frame) (s : socket) :
  opcode f = OPCODES.CLOSE ->
  handleFrame toStringUtf8 f s
  = (mkSocket (readable s) (wire s) true
       (console s ++ [LogReceived (toStringUtf8 (decoded f)) (messageLength f) (opcode f)]
                  ++ [LogCloseReceived]),
     Done tt).
Proof.
  intros H. unfold handleFrame.
  rewrite (bind_Done _ _ _ _ _ eq_refl). rewrite H.
  change (OPCODES.CLOSE =? OPCODES.TEXT) with false.
  change (OPCODES.CLOSE =? OPCODES.CLOSE) with true. cbv iota.
  unfold bind, console_log, socket_end. cbn.
  rewrite <- app_assoc. reflexivity.
Qed.

Lemma handleFrame_ping (f : frame) (s : socket) :
  opcode f = OPCODES.PING ->
  ended s = false ->
  handleFrame toStringUtf8 f s
  = (mkSocket (readable s)
       (wire s ++ [0x8a; JS.toUint8 (Z.of_nat (length (decoded f)))] ++ decoded f)
       false
       (console s ++ [LogReceived (toStringUtf8 (decoded f)) (messageLength f) (opcode f)]
                  ++ [LogPingReceived]),
     Done tt).
Proof.
  intros H Hopen. unfold handleFrame.
  rewrite (bind_Done _ _ _ _ _ eq_refl). rewrite H.
  change (OPCODES.PING =? OPCODES.TEXT) with false.
  change (OPCODES.PING =? OPCODES.CLOSE) with false.
  change (OPCODES.PING =? OPCODES.PING) with true. cbv iota.
  unfold bind, console_log, sendPong, socket_write, bind. cbn.
  rewrite Hopen. cbn. rewrite <- !app_assoc. reflexivity.
Qed.

(** A Ping whose payload has between 1 and 125 bytes is answered by one
    Pong frame with the same payload, and the socket stays open. *)
Lemma ping_answered (fin : bool) (key payload rest : list Z) (s : socket) :
  length key = 4%nat ->
  Forall is_byte payload ->
  0 < Z.of_nat (length payload) <= 125 ->
  ended s = false ->
  onSocketreadable toStringUtf8
    (set_readable (clientFrame fin OPCODES.PING key payload ++ rest) s)
  = (mkSocket rest (wire s ++ controlFrame OPCODES.PONG payload) false
       (console s ++ [LogReceived (toStringUtf8 payload)
                        (Z.of_nat (length payload)) OPCODES.PING]
                  ++ [LogPingReceived]),
     Done tt).
Proof.
  intros Hkey Hb HL Hopen. unfold onSocketreadable.
  erewrite bind_Done;
    [| apply readFrame_clientFrame; try assumption;
       [unfold OPCODES.PING; lia | unfold MAX_HWM; lia]].
  rewrite handleFrame_ping by (try reflexivity; exact Hopen).
  cbn [decoded messageLength opcode readable wire console set_readable].
  rewrite toUint8_byte by (unfold is_byte; lia). reflexivity.
Qed.

(** A Close frame with a non-empty body ends the socket; no byte is
    written in reply. *)
Lemma close_ends_without_reply (fin : bool) (key payload rest : list Z)
      (s : socket) :
  length key = 4%nat ->
  Forall is_byte payload ->
  0 < Z.of_nat (length payload) <= MAX_HWM ->
  onSocketreadable toStringUtf8
    (set_readable (clientFrame fin OPCODES.CLOSE key payload ++ rest) s)
  = (mkSocket rest (wire s) true
       (console s ++ [LogReceived (toStringUtf8 payload)
                        (Z.of_nat (length payload)) OPCODES.CLOSE]
                  ++ [LogCloseReceived]),
     Done tt).
Proof.
  intros Hkey Hb HL. unfold onSocketreadable.
  erewrite bind_Done;
    [| apply readFrame_clientFrame; try assumption; unfold OPCODES.CLOSE; lia].
  rewrite handleFrame_close by reflexivity. reflexivity.
Qed.

(** A frame whose opcode has no branch is read, logged and dropped. *)
Lemma unhandled_opcode_ignored (fin : bool) (op : Z) (key payload rest : list Z)
      (s : socket) :
  0 <= op < 16 ->
  op <> OPCODES.TEXT -> op <> OPCODES.CLOSE -> op <> OPCODES.PING ->
  length key = 4%nat ->
  Forall is_byte payload ->
  0 < Z.of_nat (length payload) <= MAX_HWM ->
  onSocketreadable toStringUtf8
    (set_readable (clientFrame fin op key payload ++ rest) s)
  = (mkSocket rest (wire s) (ended s)
       (console s ++ [LogReceived (toStringUtf8 payload)
                        (Z.of_nat (length payload)) op]),
     Done tt).
Proof.
  intros Hop H1 H8 H9 Hkey Hb HL. unfold onSocketreadable.
  erewrite bind_Done; [| apply readFrame_clientFrame; assumption].
  rewrite handleFrame_unhandled by assumption. reflexivity.
Qed.

(** A frame whose MASK bit is clear never reaches the dispatch: the length
    indicator is negative, the payload read is refused, and the handler
    returns after the log line.  The four bytes read as a mask key, when
    that many are buffered, are gone. *)
Lemma readFrame_unmasked (b1 b2 : Z) (rest : list Z) (s : socket) :
  0 <= b2 < 128 ->
  readFrame (set_readable (b1 :: b2 :: rest) s)
  = (mkSocket (if Z.of_nat (length rest) <? 4 then rest else skipn 4 rest)
       (wire s) (ended s) (console s ++ [LogFailedRead]),
     Return).
Proof.
  intros Hb2. unfold readFrame.
  change (b1 :: b2 :: rest) with ([b1] ++ [b2] ++ rest).
  read_front [b1]. cbn [nth]. unfold readFrameAfter.
  read_front [b2]. cbn [destructure1 nth].
  rewrite (bind_Done _ _ _ _ _ eq_refl).
  unfold lengthIndicatorInBits, FIRST_BIT, readMessageLength,
    SEVEN_BIT_INTIGER_MARKER.
  replace (b2 - 128 <=? 125) with true by (symmetry; apply Z.leb_le; lia).
  rewrite (bind_Done _ _ _ _ _ eq_refl).
  destruct (Z.of_nat (length rest) <? 4) eqn:E.
  - apply Z.ltb_lt in E.
    erewrite (bind_Done (socket_read _));
      [| apply socket_read_null; [unfold MAX_HWM; lia | right; exact E]].
    erewrite (bind_Done (socket_read _));
      [| apply socket_read_null; [unfold MAX_HWM; lia | left; lia]].
    reflexivity.
  - apply Z.ltb_ge in E.
    rewrite <- (firstn_skipn 4 rest) at 1.
    read_front (firstn 4 rest); [| rewrite length_firstn; lia].
    erewrite (bind_Done (socket_read _));
      [| apply socket_read_null; [unfold MAX_HWM; lia | left; lia]].
    reflexivity.
Qed.

(** C4 (amended).  A frame whose MASK bit is clear is not delivered and
    is not answered with a protocol error either: the handler returns at
    the refused payload read, having logged the failure; nothing is
    written, the socket is not ended and no exception is raised.  The two
    header bytes are consumed, and so are the next four when they are
    buffered. *)
Theorem unmasked_frame_dropped (b1 b2 : Z) (rest : list Z) (s : socket) :
  0 <= b2 < 128 ->
  onSocketreadable toStringUtf8 (set_readable (b1 :: b2 :: rest) s)
  = (mkSocket (if Z.of_nat (length rest) <? 4 then rest else skipn 4 rest)
       (wire s) (ended s) (console s ++ [LogFailedRead]),
     Return).
Proof.
  intros Hb2. unfold onSocketreadable.
  apply bind_Return, readFrame_unmasked, Hb2.
Qed.

(** C5 (amended).  A complete masked frame with a non-empty payload whose
    opcode is none of 0x0, 0x1, 0x2, 0x8, 0x9, 0xA is read, unmasked and
    logged, and nothing else happens: no byte is written, the socket is
    not ended, no exception is raised, and the bytes after the frame stay
    buffered. *)
Theorem reserved_opcode_ignored (fin : bool) (op : Z)
        (key payload rest : list Z) (s : socket) :
  0 <= op < 16 ->
  knownOpcode op = false ->
  length key = 4%nat ->
  Forall is_byte payload ->
  0 < Z.of_nat (length payload) <= MAX_HWM ->
  onSocketreadable toStringUtf8
    (set_readable (clientFrame fin op key payload ++ rest) s)
  = (mkSocket rest (wire s) (ended s)
       (console s ++ [LogReceived (toStringUtf8 payload)
                        (Z.of_nat (length payload)) op]),
     Done tt).
Proof.
  intros Hop Hknown Hkey Hb HL.
  unfold knownOpcode in Hknown.
  repeat (apply orb_false_iff in Hknown; destruct Hknown as [Hknown ?]).
  apply unhandled_opcode_ignored; try assumption; now apply Z.eqb_neq.
Qed.

End Dispatch.

Lemma unmasked_frame_dropped_witness :
  onSocketreadable utf8_id (set_readable [129; 2; 72; 105] fresh)
  = (mkSocket [72; 105] [] false [LogFailedRead], Return).
Proof.
  apply (unmasked_frame_dropped utf8_id 129 2 [72; 105] fresh). lia.
Defined.

(** An unmasked text frame ["Hello"]: the handler takes ["Hell"] for a mask
    key, gives up and returns; no Close frame with code 1002 is sent and the
    socket is not ended. *)
Lemma unmasked_frame_counterexample :
  deliver utf8_id [129; 5; 72; 101; 108; 108; 111] fresh
  = (mkSocket [111] [] false [LogFailedRead], Return)
  /\ ~ protocolErrorTeardown fresh
        (fst (deliver utf8_id [129; 5; 72; 101; 108; 108; 111] fresh)).
Proof.
  split; [reflexivity|].
  intros [Hwire _]. discriminate Hwire.
Qed.

Lemma reserved_opcode_ignored_witness :
  onSocketreadable utf8_id
    (set_readable (clientFrame true 3 [1; 2; 3; 4] [72; 105] ++ []) fresh)
  = (mkSocket [] [] false [LogReceived [72; 105] 2 3], Done tt).
Proof.
  apply (reserved_opcode_ignored utf8_id true 3 [1; 2; 3; 4] [72; 105] [] fresh).
  - lia.
  - reflexivity.
  - reflexivity.
  - repeat constructor; unfold is_byte; lia.
  - unfold MAX_HWM. cbn. lia.
Defined.

(** A masked frame with the reserved opcode 0x3: it is decoded and logged,
    the handler finishes normally, and the connection is left as it was. *)
Lemma reserved_opcode_counterexample :
  deliver utf8_id (clientFrame true 3 [1; 2; 3; 4] [72; 105]) fresh
  = (mkSocket [] [] false [LogReceived [72; 105] 2 3], Done tt)
  /\ ~ protocolErrorTeardown fresh
        (fst (deliver utf8_id (clientFrame true 3 [1; 2; 3; 4] [72; 105]) fresh)).
Proof.
  split; [reflexivity|].
  intros [Hwire _]. discriminate Hwire.
Qed.

(** C3.  A masked Close frame with status 1000, whatever text the decoder
    makes of its two body bytes for the log line: the handler ends the
    socket and writes nothing, so no Close frame goes back to the peer. *)
Theorem close_frame_not_echoed (toStringUtf8 : list Z -> list Z) :
  deliver toStringUtf8
    (clientFrame true OPCODES.CLOSE [1; 2; 3; 4] (closeBody 1000)) fresh
  = (mkSocket [] [] true
       [LogReceived (toStringUtf8 [3; 232]) 2 8; LogCloseReceived], Done tt)
  /\ wire (fst (deliver toStringUtf8
        (clientFrame true OPCODES.CLOSE [1; 2; 3; 4] (closeBody 1000)) fresh))
     <> controlFrame OPCODES.CLOSE (closeBody 1000)
  /\ ended (fst (deliver toStringUtf8
        (clientFrame true OPCODES.CLOSE [1; 2; 3; 4] (closeBody 1000)) fresh))
     = true.
Proof. split; [reflexivity | split; [discriminate | reflexivity]]. Qed.

(** The handler keeps no closed state: a text frame that arrives after the
    Close frame is still taken off the buffer and unmasked. *)
Lemma frame_after_close_still_read (toStringUtf8 : list Z -> list Z) :
  readFrame
    (push (clientFrame true OPCODES.TEXT [1; 2; 3; 4] [72; 105])
       (fst (deliver toStringUtf8
               (clientFrame true OPCODES.CLOSE [1; 2; 3; 4] (closeBody 1000))
               fresh)))
  = (mkSocket [] [] true
       [LogReceived (toStringUtf8 [3; 232]) 2 8; LogCloseReceived],
     Done (mkFrame true 1 true 2 [72; 105])).
Proof. reflexivity. Qed.

(** C7.  A masked Ping with an empty payload: the zero-length payload read
    comes back [null], the handler logs the failure and returns, and no Pong
    is written. *)
Theorem empty_ping_not_answered :
  deliver utf8_id (clientFrame true OPCODES.PING [1; 2; 3; 4] []) fresh
  = (mkSocket [] [] false [LogFailedRead], Return)
  /\ wire (fst (deliver utf8_id (clientFrame true OPCODES.PING [1; 2; 3; 4] []) fresh))
     <> controlFrame OPCODES.PONG [].
Proof. split; [reflexivity | discriminate]. Qed.

(** [sendPong] has no extended-length branch: for a Ping of 126 bytes the
    length byte it writes is the 16-bit marker itself. *)
Lemma long_ping_length_byte :
  wire (fst (deliver utf8_id
               (clientFrame true OPCODES.PING [1; 2; 3; 4] (repeat 7 126)) fresh))
  = [0x8a; 126] ++ repeat 7 126.
Proof. vm_compute. reflexivity. Qed.

(** ** Reading across chunk boundaries *)

Lemma bind_Done_inv {A B} (m : M A) (k : A -> M B) s s' b :
  bind m k s = (s', Done b) ->
  exists s1 a, m s = (s1, Done a) /\ k a s1 = (s', Done b).
Proof.
  unfold bind. destruct (m s) as [s1 [a| |]] eqn:E; intros H; try discriminate.
  now exists s1, a.
Qed.

Lemma socket_read_inv (n : Z) (s s' : socket) (o : outcome (option (list Z))) :
  socket_read n s = (s', o) ->
  ((o = Done None \/ o = Throw) /\ s' = s)
  \/ (exists a, o = Done (Some a) /\ a <> [] /\ Z.of_nat (length a) = n
                /\ n <= MAX_HWM
                /\ readable s = a ++ readable s'
                /\ s' = set_readable (readable s') s).
Proof.
  unfold socket_read.
  destruct (MAX_HWM <? n) eqn:E0.
  { intros H. injection H as <- <-. left. split; [now right | reflexivity]. }
  apply Z.ltb_ge in E0.
  destruct (n <=? 0) eqn:E1; cbn [orb].
  - intros H. injection H as <- <-. left. split; [now left | reflexivity].
  - destruct (Z.of_nat (length (readable s)) <? n) eqn:E2.
    + intros H. injection H as <- <-. left. split; [now left | reflexivity].
    + intros H. injection H as <- <-. right.
      apply Z.leb_gt in E1. apply Z.ltb_ge in E2.
      exists (firstn (Z.to_nat n) (readable s)).
      assert (Hlen : length (firstn (Z.to_nat n) (readable s)) = Z.to_nat n)
        by (rewrite length_firstn; lia).
      repeat split.
      * intros Hnil. rewrite Hnil in Hlen. cbn in Hlen. lia.
      * rewrite Hlen. lia.
      * exact E0.
      * cbn [readable set_readable]. now rewrite firstn_skipn.
Qed.

Lemma pureM_stable {A} (m : M A) : pureM m -> stable m.
Proof.
  intros [o Hm] s s' a c H. rewrite Hm in H. injection H as <- ->.
  apply Hm.
Qed.

Lemma pureM_consuming {A} (m : M A) : pureM m -> consuming m.
Proof.
  intros [o' Hm] s s' o H. rewrite Hm in H. injection H as <- _.
  now exists [].
Qed.

Lemma stable_bind {A B} (m : M A) (k : A -> M B) :
  stable m -> (forall a, stable (k a)) -> stable (bind m k).
Proof.
  intros Hm Hk s s' b c H.
  apply bind_Done_inv in H. destruct H as (s1 & a & H1 & H2).
  rewrite (bind_Done _ _ _ _ _ (Hm _ _ _ c H1)).
  apply Hk, H2.
Qed.

(** A read whose [null] case cannot lead to a value. *)
Lemma stable_read {B} (n : Z) (k : option (list Z) -> M B) :
  neverDone (k None) ->
  (forall a, a <> [] -> Z.of_nat (length a) = n -> stable (k (Some a))) ->
  stable (bind (socket_read n) k).
Proof.
  intros Hnone Hsome s s' b c H.
  apply bind_Done_inv in H. destruct H as (s1 & r & H1 & H2).
  destruct (socket_read_inv _ _ _ _ H1)
    as [[[Hr | Hr] _] | (a & Hr & Hne & Hlen & Hmax & Hbuf & Hs1)];
    try discriminate Hr.
  - injection Hr as ->. now apply Hnone in H2.
  - injection Hr as ->.
    assert (Hread : socket_read n (set_readable (readable s ++ c) s)
                    = (set_readable (readable s1 ++ c) s1, Done (Some a))).
    { rewrite Hbuf, <- app_assoc, Hs1. cbn [readable set_readable].
      rewrite (socket_read_app a (readable s1 ++ c) s n); [reflexivity | lia |].
      destruct a; [contradiction | cbn in Hlen; lia]. }
    rewrite (bind_Done _ _ _ _ _ Hread).
    now apply Hsome.
Qed.

Lemma consuming_bind {A B} (m : M A) (k : A -> M B) :
  consuming m -> (forall a, consuming (k a)) -> consuming (bind m k).
Proof.
  intros Hm Hk s s' o. unfold bind.
  destruct (m s) as [s1 [a| |]] eqn:E; intros H.
  - destruct (Hm _ _ _ E) as [u1 H1]. destruct (Hk a _ _ _ H) as [u2 H2].
    exists (u1 ++ u2). now rewrite H1, H2, app_assoc.
  - injection H as <- _. exact (Hm _ _ _ E).
  - injection H as <- _. exact (Hm _ _ _ E).
Qed.

Lemma consuming_read (n : Z) : consuming (socket_read n).
Proof.
  intros s s' o H.
  destruct (socket_read_inv _ _ _ _ H) as [[_ ->] | (a & _ & _ & _ & _ & Hbuf & _)].
  - now exists [].
  - now exists a.
Qed.

Lemma consuming_log (l : logline) : consuming (console_log l).
Proof. intros s s' o H. injection H as <- _. now exists []. Qed.

Lemma pureM_ret {A} (a : A) : pureM (ret a).
Proof. now exists (Done a). Qed.

Lemma pureM_throw {A} : pureM (@throw A).
Proof. now exists Throw. Qed.

Lemma pureM_return {A} : pureM (@return_ A).
Proof. now exists Return. Qed.

Lemma pureM_destructure1 b : pureM (destructure1 b).
Proof. destruct b; [apply pureM_ret | apply pureM_throw]. Qed.

Lemma pureM_deref b : pureM (deref b).
Proof. destruct b; [apply pureM_ret | apply pureM_throw]. Qed.

Lemma pureM_unmask enc key : pureM (unmask enc key).
Proof.
  destruct enc as [|e enc]; [apply pureM_ret|].
  destruct key; [apply pureM_ret | apply pureM_throw].
Qed.

Lemma neverDone_throw {A} : neverDone (@throw A).
Proof. intros s s' a H. discriminate H. Qed.

Lemma neverDone_return {A} : neverDone (@return_ A).
Proof. intros s s' a H. discriminate H. Qed.

Lemma neverDone_bind_left {A B} (m : M A) (k : A -> M B) :
  neverDone m -> neverDone (bind m k).
Proof.
  intros Hm s s' b H. apply bind_Done_inv in H.
  destruct H as (s1 & a & H1 & _). now apply Hm in H1.
Qed.

Lemma neverDone_bind_right {A B} (m : M A) (k : A -> M B) :
  (forall a, neverDone (k a)) -> neverDone (bind m k).
Proof.
  intros Hk s s' b H. apply bind_Done_inv in H.
  destruct H as (s1 & a & _ & H2). now apply Hk in H2.
Qed.

Lemma neverDone_read {B} (n : Z) (k : option (list Z) -> M B) :
  neverDone (k None) ->
  (forall a, a <> [] -> neverDone (k (Some a))) ->
  neverDone (bind (socket_read n) k).
Proof.
  intros Hnone Hsome s s' b H. apply bind_Done_inv in H.
  destruct H as (s1 & r & H1 & H2).
  destruct (socket_read_inv _ _ _ _ H1) as [[[Hr | Hr] _] | (a & Hr & Hne & _)];
    try discriminate Hr; injection Hr as ->.
  - now apply Hnone in H2.
  - now apply (Hsome a Hne) in H2.
Qed.

Create HintDb handler.
#[local] Hint Resolve pureM_ret pureM_throw pureM_return pureM_destructure1
  pureM_deref pureM_unmask pureM_stable pureM_consuming
  neverDone_throw neverDone_return consuming_read consuming_log : handler.

Lemma stable_readMessageLength (ind : Z) : stable (readMessageLength ind).
Proof.
  unfold readMessageLength.
  destruct (ind <=? SEVEN_BIT_INTIGER_MARKER); [auto with handler|].
  destruct (ind =? SIXTEEN_BIT_INTIGER_MARKER).
  { apply stable_read.
    - apply neverDone_bind_left. auto with handler.
    - intros a _ _. apply stable_bind; intros; auto with handler. }
  destruct (ind =? SIXTYFOUR_BIT_INTIGER_MARKER); [|auto with handler].
  apply stable_read.
  - apply neverDone_bind_left. auto with handler.
  - intros a _ _. apply stable_bind; [auto with handler|]. intros ubs.
    apply stable_read.
    + apply neverDone_bind_left. auto with handler.
    + intros b _ _. apply stable_bind; intros; auto with handler.
Qed.

Lemma consuming_readMessageLength (ind : Z) : consuming (readMessageLength ind).
Proof.
  unfold readMessageLength.
  repeat match goal with
         | |- consuming (if ?c then _ else _) => destruct c
         | |- consuming (bind _ _) => apply consuming_bind; [|intros ?]
         end; auto with handler.
Qed.

(** The payload read and the unmasking when the mask key read came back
    [null]: either no payload, or the loop throws on its first index. *)
Lemma neverDone_without_key (fin masked : bool) (op len : Z) :
  neverDone
    (encoded <- socket_read len ;;
     match encoded with
     | None => console_log LogFailedRead ;;; return_
     | Some enc =>
         dec <- unmask enc None ;;
         ret (mkFrame fin op masked len dec)
     end).
Proof.
  apply neverDone_read.
  - apply neverDone_bind_right. intros _. auto with handler.
  - intros [|e enc] Hne; [contradiction|].
    apply neverDone_bind_left. cbn. auto with handler.
Qed.

(** A frame that was read completely is read the same way when more bytes
    are buffered behind it. *)
Lemma stable_readFrameAfter (firstByte : Z) : stable (readFrameAfter firstByte).
Proof.
  unfold readFrameAfter.
  apply stable_read.
  - apply neverDone_bind_left. cbn. auto with handler.
  - intros sb _ _. apply stable_bind; [auto with handler|]. intros secondByte.
    apply stable_bind; [apply stable_readMessageLength|]. intros len.
    apply stable_read.
    + apply neverDone_without_key.
    + intros key _ _. apply stable_read.
      * apply neverDone_bind_right. intros _. auto with handler.
      * intros enc _ _. apply stable_bind; intros; auto with handler.
Qed.

Lemma stable_readFrame : stable readFrame.
Proof.
  unfold readFrame. apply stable_read.
  - auto with handler.
  - intros fb _ _. apply stable_readFrameAfter.
Qed.

Lemma consuming_readFrameAfter (firstByte : Z) : consuming (readFrameAfter firstByte).
Proof.
  unfold readFrameAfter.
  repeat match goal with
         | |- consuming (bind _ _) => apply consuming_bind; [|intros ?]
         | |- consuming (match ?x with Some _ => _ | None => _ end) => destruct x
         end; auto using consuming_readMessageLength with handler.
Qed.

(** On a non-empty buffer the handler always takes the first byte, whatever
    happens next, and nothing it took comes back. *)
Lemma readFrame_takes_first (b : Z) (r : list Z) (s s' : socket) (o : outcome frame) :
  readFrame (set_readable (b :: r) s) = (s', o) ->
  exists used, r = used ++ readable s'.
Proof.
  unfold readFrame. intros H.
  change (b :: r) with ([b] ++ r) in H.
  erewrite (bind_Done (socket_read _)) in H;
    [| apply (socket_read_app [b]); [reflexivity | unfold MAX_HWM; lia]].
  apply consuming_readFrameAfter in H. exact H.
Qed.

(** With nothing buffered the handler returns at once. *)
Lemma readFrame_empty (s : socket) :
  readFrame (set_readable [] s) = (set_readable [] s, Return).
Proof. reflexivity. Qed.


(** ** How many bytes a decoded frame has taken *)

Lemma is_byte_lxor (a b : Z) : is_byte a -> is_byte b -> is_byte (Z.lxor a b).
Proof.
  unfold is_byte. intros Ha Hb.
  assert (Hnn : 0 <= Z.lxor a b) by (apply Z.lxor_nonneg; lia).
  split; [exact Hnn|].
  destruct (Z.eq_dec (Z.lxor a b) 0) as [-> | Hnz]; [lia|].
  change 256 with (2 ^ 8). apply Z.log2_lt_pow2; [lia|].
  pose proof (Z.log2_lxor a b) as Hl.
  assert (Z.log2 a < 8).
  { destruct (Z.eq_dec a 0) as [-> | ?]; [cbn; lia|].
    apply Z.log2_lt_pow2; lia. }
  assert (Z.log2 b < 8).
  { destruct (Z.eq_dec b 0) as [-> | ?]; [cbn; lia|].
    apply Z.log2_lt_pow2; lia. }
  lia.
Qed.

Lemma is_byte_nth (l : list Z) (i : nat) : Forall is_byte l -> is_byte (nth i l 0).
Proof.
  intros Hl. destruct (Nat.lt_ge_cases i (length l)) as [Hi | Hi].
  - rewrite Forall_forall in Hl. apply Hl, nth_In, Hi.
  - rewrite nth_overflow by exact Hi. unfold is_byte. lia.
Qed.

Lemma maskFrom_bytes (payload key : list Z) (i : nat) :
  Forall is_byte payload -> Forall is_byte key ->
  Forall is_byte (maskFrom i payload key).
Proof.
  intros Hp Hk. revert i.
  induction Hp as [|p payload Hp _ IH]; intros i; cbn; constructor.
  - apply is_byte_lxor; [exact Hp | apply is_byte_nth, Hk].
  - apply IH.
Qed.

Lemma is_byte_mod (v : Z) : is_byte (v mod 256).
Proof. unfold is_byte. apply Z.mod_pos_bound. lia. Qed.

Lemma be32_bytes (v : Z) : Forall is_byte (be32 v).
Proof. unfold be32. repeat constructor; apply is_byte_mod. Qed.

Lemma clientLength_bytes (n : Z) : 0 <= n -> Forall is_byte (clientLength n).
Proof.
  intros Hn. unfold clientLength.
  destruct (n <=? 125) eqn:E1; [| destruct (n <=? 65535)].
  - apply Z.leb_le in E1. repeat constructor; unfold is_byte; lia.
  - repeat constructor; try apply is_byte_mod. unfold is_byte; lia.
  - constructor; [unfold is_byte; lia|].
    apply Forall_app. split; apply be32_bytes.
Qed.

Lemma clientFrame_bytes (fin : bool) (op : Z) (key payload : list Z) :
  0 <= op < 16 -> Forall is_byte key -> Forall is_byte payload ->
  Forall is_byte (clientFrame fin op key payload).
Proof.
  intros Hop Hk Hp. unfold clientFrame. constructor.
  - unfold is_byte, bool_bit. destruct fin; lia.
  - apply Forall_app. split; [apply clientLength_bytes; lia|].
    apply Forall_app. split; [exact Hk | now apply maskFrom_bytes].
Qed.

Lemma clientLength_length_le (n : Z) : (length (clientLength n) <= 9)%nat.
Proof.
  unfold clientLength. destruct (n <=? 125); [cbn; lia|].
  destruct (n <=? 65535); cbn; lia.
Qed.

Lemma clientFrame_length (fin : bool) (op : Z) (key payload : list Z) :
  length (clientFrame fin op key payload)
  = (1 + length (clientLength (Z.of_nat (length payload)))
     + length key + length payload)%nat.
Proof.
  unfold clientFrame. cbn [length].
  rewrite !length_app, maskFrom_length. lia.
Qed.

(** The extended-length bytes a successful length read has taken are at
    least those of the shortest encoding of the length it returns. *)
Lemma readMessageLength_Done_inv (ind len : Z) (s s' : socket) :
  readMessageLength ind s = (s', Done len) ->
  Forall is_byte (readable s) ->
  exists ext,
    readable s = ext ++ readable s'
    /\ (length (clientLength len) <= 1 + length ext)%nat.
Proof.
  unfold readMessageLength. intros H Hbytes.
  destruct (ind <=? SEVEN_BIT_INTIGER_MARKER) eqn:E1.
  { injection H as <- <-. exists []. split; [reflexivity|].
    unfold clientLength. unfold SEVEN_BIT_INTIGER_MARKER in E1.
    rewrite E1. cbn. lia. }
  destruct (ind =? SIXTEEN_BIT_INTIGER_MARKER).
  { apply bind_Done_inv in H. destruct H as (s1 & r & Hread & H).
    destruct (socket_read_inv _ _ _ _ Hread)
      as [[[Hr | Hr] _] | (a & Hr & _ & Hlen & _ & Hbuf & _)];
      try discriminate Hr; injection Hr as ->; [discriminate H|].
    cbn in H. injection H as <- <-.
    exists a. split; [exact Hbuf|].
    rewrite Hbuf in Hbytes. apply Forall_app in Hbytes. destruct Hbytes as [Ha _].
    destruct a as [|x [|y [|z a]]]; cbn in Hlen; try lia.
    inversion Ha as [|? ? Hx Ha']. inversion Ha' as [|? ? Hy _]. subst.
    unfold Buffer.readUInt16BE, clientLength, is_byte in *. cbn [nth].
    destruct (x * 256 + y <=? 125); [cbn; lia|].
    replace (x * 256 + y <=? 65535) with true by (symmetry; apply Z.leb_le; lia).
    cbn. lia. }
  destruct (ind =? SIXTYFOUR_BIT_INTIGER_MARKER).
  - apply bind_Done_inv in H. destruct H as (s1 & r & Hread & H).
    destruct (socket_read_inv _ _ _ _ Hread)
      as [[[Hr | Hr] _] | (a & Hr & _ & Hlen & _ & Hbuf & _)];
      try discriminate Hr; injection Hr as ->; [discriminate H|].
    cbn [deref] in H. rewrite (bind_Done _ _ _ _ _ eq_refl) in H.
    apply bind_Done_inv in H. destruct H as (s2 & r2 & Hread2 & H).
    destruct (socket_read_inv _ _ _ _ Hread2)
      as [[[Hr | Hr] _] | (b & Hr & _ & Hlen2 & _ & Hbuf2 & _)];
      try discriminate Hr; injection Hr as ->; [discriminate H|].
    cbn in H. injection H as <- <-.
    exists (a ++ b). split.
    + now rewrite Hbuf, Hbuf2, app_assoc.
    + rewrite length_app. pose proof (clientLength_length_le
        (JS.shl (Buffer.readUInt32BE a) 32 + Buffer.readUInt32BE b)). lia.
  - injection H as <- <-. exists []. split; [reflexivity|]. cbn. lia.
Qed.

(** A call that completes a frame has taken at least as many bytes as the
    shortest masked encoding of a payload of that length. *)
Lemma readFrame_Done_size (s s' : socket) (g : frame) :
  readFrame s = (s', Done g) ->
  Forall is_byte (readable s) ->
  (1 + length (clientLength (messageLength g)) + 4 + Z.to_nat (messageLength g)
   <= length (readable s))%nat.
Proof.
  unfold readFrame. intros H Hbytes.
  apply bind_Done_inv in H. destruct H as (s1 & r1 & Hread1 & H).
  destruct (socket_read_inv _ _ _ _ Hread1)
    as [[[Hr | Hr] _] | (a1 & Hr & _ & Hlen1 & _ & Hbuf1 & _)];
    try discriminate Hr; injection Hr as ->; [discriminate H|].
  unfold readFrameAfter in H.
  apply bind_Done_inv in H. destruct H as (s2 & r2 & Hread2 & H).
  destruct (socket_read_inv _ _ _ _ Hread2)
    as [[[Hr | Hr] _] | (a2 & Hr & _ & Hlen2 & _ & Hbuf2 & _)];
    try discriminate Hr; injection Hr as ->; [discriminate H|].
  cbn [destructure1] in H. rewrite (bind_Done _ _ _ _ _ eq_refl) in H.
  apply bind_Done_inv in H. destruct H as (s3 & len & Hlen & H).
  assert (Hbytes2 : Forall is_byte (readable s2)).
  { rewrite Hbuf1, Hbuf2 in Hbytes.
    apply Forall_app in Hbytes. destruct Hbytes as [_ Hbytes].
    apply Forall_app in Hbytes. now destruct Hbytes. }
  destruct (readMessageLength_Done_inv _ _ _ _ Hlen Hbytes2) as (ext & Hbuf3 & Hext).
  apply bind_Done_inv in H. destruct H as (s4 & r4 & Hread4 & H).
  destruct (socket_read_inv _ _ _ _ Hread4)
    as [[[Hr | Hr] _] | (key & Hr & _ & Hlen4 & _ & Hbuf4 & _)];
    try discriminate Hr; injection Hr as ->.
  { now apply neverDone_without_key in H. }
  apply bind_Done_inv in H. destruct H as (s5 & r5 & Hread5 & H).
  destruct (socket_read_inv _ _ _ _ Hread5)
    as [[[Hr | Hr] _] | (enc & Hr & _ & Hlen5 & _ & Hbuf5 & _)];
    try discriminate Hr; injection Hr as ->; [discriminate H|].
  apply bind_Done_inv in H. destruct H as (s6 & dec & _ & H).
  injection H as _ <-. cbn [messageLength].
  rewrite Hbuf1, Hbuf2, Hbuf3, Hbuf4, Hbuf5, !length_app. lia.
Qed.

(** The first call on a proper prefix of a frame: no frame, and the bytes it
    took are off the buffer. *)
Lemma readFrame_proper_prefix (fin : bool) (op : Z) (key payload c1 c2 : list Z) :
  0 <= op < 16 ->
  length key = 4%nat ->
  Forall is_byte payload ->
  0 < Z.of_nat (length payload) <= MAX_HWM ->
  c1 ++ c2 = clientFrame fin op key payload ->
  c1 <> [] -> c2 <> [] ->
  exists s1 o used,
    readFrame (set_readable c1 fresh) = (s1, o)
    /\ (forall g, o <> Done g)
    /\ used <> []
    /\ c1 = used ++ readable s1.
Proof.
  intros Hop Hkey Hb HL Hsplit Hc1 Hc2.
  pose proof (readFrame_clientFrame fin op key payload [] fresh Hop Hkey Hb HL)
    as Hwhole.
  rewrite app_nil_r, <- Hsplit in Hwhole.
  destruct (readFrame (set_readable c1 fresh)) as [s1 o] eqn:Hfirst.
  destruct c1 as [|b r]; [contradiction|].
  destruct (readFrame_takes_first b r fresh s1 o Hfirst) as [used Hused].
  exists s1, o, (b :: used). repeat split.
  - intros g ->.
    pose proof (stable_readFrame _ _ _ c2 Hfirst) as Hmore.
    change (push c2 (set_readable (b :: r) fresh))
      with (set_readable ((b :: r) ++ c2) fresh) in Hmore.
    rewrite Hwhole in Hmore.
    assert (Hbuf : readable s1 ++ c2 = [])
      by (apply (f_equal (fun r => readable (fst r))) in Hmore; now symmetry).
    apply app_eq_nil in Hbuf. destruct Hbuf as [_ Hnil].
    contradiction.
  - discriminate.
  - cbn [app]. now rewrite <- Hused.
Qed.

(** C1 (amended).  A complete masked frame with a non-empty payload, buffered
    whole, is decoded in one call to its FIN flag, opcode, mask flag and
    payload.  Fed as two chunks it gives the same decoded frame exactly when
    one of the chunks is empty.  For every other split the first call
    completes no frame and does not keep what it read for the next call: the
    bytes it took off the buffer, the first byte of the frame at least, are
    gone. *)
Theorem streaming_only_for_trivial_splits (fin : bool) (op : Z)
        (key payload c1 c2 : list Z) :
  0 <= op < 16 ->
  length key = 4%nat ->
  Forall is_byte key ->
  Forall is_byte payload ->
  0 < Z.of_nat (length payload) <= MAX_HWM ->
  c1 ++ c2 = clientFrame fin op key payload ->
  framesRead [c1 ++ c2] fresh
  = [mkFrame fin op true (Z.of_nat (length payload)) payload]
  /\ (framesRead [c1; c2] fresh = framesRead [c1 ++ c2] fresh
      <-> c1 = [] \/ c2 = [])
  /\ (c1 <> [] -> c2 <> [] ->
      exists s1 o used,
        readFrame (set_readable c1 fresh) = (s1, o)
        /\ (forall g, o <> Done g)
        /\ used <> []
        /\ c1 = used ++ readable s1).
Proof.
  intros Hop Hkey Hkb Hb HL Hsplit.
  pose proof (readFrame_clientFrame fin op key payload [] fresh Hop Hkey Hb HL)
    as Hwhole.
  rewrite app_nil_r, <- Hsplit in Hwhole.
  assert (Hone : framesRead [c1 ++ c2] fresh
                 = [mkFrame fin op true (Z.of_nat (length payload)) payload]).
  { cbn [framesRead]; unfold push; cbn [readable fresh app]. now rewrite Hwhole. }
  split; [exact Hone|].
  split; [| now apply (readFrame_proper_prefix fin op key payload)].
  split.
  - intros Heq.
    destruct c1 as [|b r]; [now left|].
    destruct c2 as [|b' r']; [now right|]. exfalso.
    destruct (readFrame_proper_prefix fin op key payload (b :: r) (b' :: r'))
      as (s1 & o & used & Hfirst & Hnot & Hne & Hused);
      try assumption; try discriminate.
    rewrite Hone in Heq.
    cbn [framesRead] in Heq; unfold push in Heq; cbn [readable fresh app] in Heq.
    rewrite Hfirst in Heq.
    assert (Hsecond : framesRead [b' :: r'] s1
                      = [mkFrame fin op true (Z.of_nat (length payload)) payload]).
    { destruct o as [g| |]; [now destruct (Hnot g) | exact Heq | exact Heq]. }
    cbn [framesRead] in Hsecond; unfold push in Hsecond.
    destruct (readFrame (set_readable (readable s1 ++ b' :: r') s1))
      as [s2 [g| |]] eqn:Hrun; try discriminate Hsecond.
    injection Hsecond as ->.
    apply readFrame_Done_size in Hrun.
    + cbn [messageLength readable set_readable] in Hrun.
      pose proof (f_equal (@length Z) Hsplit) as Hlen.
      rewrite clientFrame_length, Hused in Hlen.
      rewrite !length_app in Hlen. rewrite length_app in Hrun.
      rewrite Nat2Z.id in Hrun.
      rewrite Hkey in Hlen.
      destruct used; [contradiction | cbn [length] in Hlen, Hrun; lia].
    + cbn [readable set_readable].
      pose proof (clientFrame_bytes fin op key payload Hop Hkb Hb) as Hall.
      rewrite <- Hsplit, Hused, <- app_assoc in Hall.
      apply Forall_app in Hall. now destruct Hall.
  - intros [-> | ->].
    + cbn [framesRead] in *; unfold push in *;
        cbn [readable fresh app set_readable wire ended console] in *.
      now rewrite Hwhole.
    + rewrite app_nil_r in *.
      cbn [framesRead] in *; unfold push in *;
        cbn [readable fresh app set_readable wire ended console] in *.
      now rewrite Hwhole.
Qed.

Lemma streaming_only_for_trivial_splits_witness :
  framesRead [[129; 130] ++ [1; 2; 3; 4; 73; 107]] fresh
  = [mkFrame true 1 true 2 [72; 105]]
  /\ framesRead [[129; 130]; [1; 2; 3; 4; 73; 107]] fresh
     <> framesRead [[129; 130] ++ [1; 2; 3; 4; 73; 107]] fresh
  /\ exists s1 o used,
       readFrame (set_readable [129; 130] fresh) = (s1, o)
       /\ (forall g, o <> Done g)
       /\ used <> []
       /\ [129; 130] = used ++ readable s1.
Proof.
  destruct (streaming_only_for_trivial_splits true 1 [1; 2; 3; 4] [72; 105]
              [129; 130] [1; 2; 3; 4; 73; 107]) as (Hone & Hiff & Hsplit).
  - lia.
  - reflexivity.
  - repeat constructor; unfold is_byte; lia.
  - repeat constructor; unfold is_byte; lia.
  - unfold MAX_HWM. cbn. lia.
  - reflexivity.
  - split; [exact Hone|]. split.
    + intros Heq. apply Hiff in Heq. destruct Heq; discriminate.
    + apply Hsplit; discriminate.
Defined.

(** The text frame ["Hi"] under the key [01 02 03 04], split after its first
    byte.  Whole, it decodes.  Split, the first call takes the first byte and
    throws on the missing second one; the second call starts in the middle
    of the frame and completes nothing.  The byte taken by the first call is
    not in the buffer afterwards. *)
Lemma streaming_split_counterexample :
  [129] ++ [130; 1; 2; 3; 4; 73; 107] = clientFrame true 1 [1; 2; 3; 4] [72; 105]
  /\ framesRead [[129] ++ [130; 1; 2; 3; 4; 73; 107]] fresh
     = [mkFrame true 1 true 2 [72; 105]]
  /\ framesRead [[129]; [130; 1; 2; 3; 4; 73; 107]] fresh = []
  /\ readFrame (set_readable [129] fresh) = (fresh, Throw).
Proof. repeat split. Qed.

(** * Further properties of the frame code *)

(** ** The unmasking loop (lines 187-190) *)

Lemma unmaskFrom_length (encoded key : list Z) (i : nat) :
  length (unmaskFrom i encoded key) = length encoded.
Proof.
  revert i. induction encoded as [|e encoded IH]; intros i; cbn;
    [reflexivity | now rewrite IH].
Qed.

Lemma is_byte_toUint8 (x : Z) : is_byte (JS.toUint8 x).
Proof.
  unfold JS.toUint8, is_byte. change 255 with (Z.ones 8).
  rewrite Z.land_ones by lia. apply Z.mod_pos_bound. lia.
Qed.

Lemma unmaskFrom_bytes (encoded key : list Z) (i : nat) :
  Forall is_byte (unmaskFrom i encoded key).
Proof.
  revert i. induction encoded as [|e encoded IH]; intros i; cbn; constructor;
    [apply is_byte_toUint8 | apply IH].
Qed.

(** The loop keeps the length, produces bytes whatever it is given, and on
    bytes it is its own inverse: unmasking twice with the same key gives the
    input back. *)
Theorem unmask_involutive (encoded key : list Z) (i : nat) :
  Forall is_byte encoded ->
  Forall is_byte key ->
  length (unmaskFrom i encoded key) = length encoded
  /\ Forall is_byte (unmaskFrom i encoded key)
  /\ unmaskFrom i (unmaskFrom i encoded key) key = encoded.
Proof.
  intros He Hk.
  split; [apply unmaskFrom_length|]. split; [apply unmaskFrom_bytes|].
  revert i. induction He as [|e encoded He _ IH]; intros i; cbn; [reflexivity|].
  assert (Hk' : is_byte (nth (i mod 4) key 0)) by now apply is_byte_nth.
  rewrite (toUint8_byte (Z.lxor e _)) by now apply is_byte_lxor.
  rewrite lxor_cancel, (toUint8_byte e He), IH. reflexivity.
Qed.

Lemma unmask_involutive_witness :
  unmaskFrom 0 (unmaskFrom 0 [72; 105; 33; 0; 255] [1; 2; 3; 4]) [1; 2; 3; 4]
  = [72; 105; 33; 0; 255].
Proof.
  apply (unmask_involutive [72; 105; 33; 0; 255] [1; 2; 3; 4] 0);
    repeat constructor; unfold is_byte; lia.
Defined.

(** ** The two length codecs against each other *)

Lemma lengthEncoding_total (n : Z) :
  0 <= n < 2 ^ 32 ->
  exists second ext,
    (forall s, lengthEncoding n s = (s, Done (second, ext)))
    /\ 0 <= second < 128
    /\ (n <= 125 -> second = n /\ ext = [])
    /\ (126 <= n <= 65535 -> second = 126 /\ ext = Buffer.writeUInt16BE n)
    /\ (65536 <= n -> second = 127 /\ ext = be32 0 ++ be32 n).
Proof.
  intros Hn.
  destruct (Z_le_gt_dec n 125) as [Hs | Hs];
    [| destruct (Z_le_gt_dec n 65535) as [Hm | Hm]].
  - exists n, []. split; [intros s; now apply lengthEncoding_small|].
    repeat split; intros; lia.
  - exists 126, (Buffer.writeUInt16BE n). split.
    + intros s. rewrite lengthEncoding_medium by lia.
      unfold Buffer.writeUInt16BE.
      rewrite (Z.mod_small (n / 256))
        by (split; [apply Z.div_pos; lia | apply Z.div_lt_upper_bound; lia]).
      reflexivity.
    + repeat split; intros; lia.
  - exists 127, (be32 0 ++ be32 n). split.
    + intros s. apply lengthEncoding_large. lia.
    + repeat split; intros; lia.
Qed.

(** The length field [sendMessage] writes is read back by the handler's
    length branch as the same number, for every length below [2^32], and
    the bytes behind the field stay in the buffer. *)
Theorem length_field_round_trip (n : Z) (rest : list Z) (s t : socket) :
  0 <= n < 2 ^ 32 ->
  exists second ext,
    lengthEncoding n s = (s, Done (second, ext))
    /\ readMessageLength second (set_readable (ext ++ rest) t)
       = (set_readable rest t, Done n).
Proof.
  intros Hn.
  destruct (lengthEncoding_total n Hn)
    as (second & ext & Henc & Hsec & Hsmall & Hmid & Hlarge).
  exists second, ext. split; [apply Henc|].
  destruct (Z_le_gt_dec n 125) as [Hs | Hs];
    [| destruct (Z_le_gt_dec n 65535) as [Hm | Hm]].
  - destruct (Hsmall Hs) as [-> ->]. unfold readMessageLength,
      SEVEN_BIT_INTIGER_MARKER.
    replace (n <=? 125) with true by (symmetry; apply Z.leb_le; lia).
    reflexivity.
  - destruct Hmid as [-> ->]; [lia|].
    change (readMessageLength 126)
      with (b <- socket_read 2 ;; bs <- deref b ;; ret (Buffer.readUInt16BE bs)).
    read_front (Buffer.writeUInt16BE n). cbn [deref].
    rewrite (bind_Done _ _ _ _ _ eq_refl).
    rewrite readUInt16BE_writeUInt16BE by lia. reflexivity.
  - destruct Hlarge as [-> ->]; [lia|].
    rewrite <- app_assoc.
    change 127 with SIXTYFOUR_BIT_INTIGER_MARKER.
    rewrite readMessageLength_64 by lia.
    rewrite toInt32_small by lia. reflexivity.
Qed.

Lemma length_field_round_trip_witness :
  exists second ext,
    lengthEncoding 70000 fresh = (fresh, Done (second, ext))
    /\ readMessageLength second (set_readable (ext ++ [9; 9]) fresh)
       = (set_readable [9; 9] fresh, Done 70000).
Proof. apply (length_field_round_trip 70000 [9; 9] fresh fresh). lia. Defined.

(** The 64-bit branch returns the signed 32-bit reading of the upper half
    plus the lower half; that is the encoded length exactly when the upper
    half is zero, that is for lengths below [2^32]. *)
Theorem length64_exact_below_4GiB (upper lower : Z) (rest : list Z) (s : socket) :
  0 <= upper < 2 ^ 32 -> 0 <= lower < 2 ^ 32 ->
  exists len,
    readMessageLength SIXTYFOUR_BIT_INTIGER_MARKER
      (set_readable (be32 upper ++ be32 lower ++ rest) s)
    = (set_readable rest s, Done len)
    /\ len = JS.toInt32 upper + lower
    /\ (len = upper * 2 ^ 32 + lower <-> upper = 0).
Proof.
  intros Hu Hl. exists (JS.toInt32 upper + lower).
  split; [now apply readMessageLength_64|]. split; [reflexivity|].
  rewrite <- shl_32. now apply length64_exact_iff.
Qed.

Lemma length64_exact_below_4GiB_witness :
  exists len,
    readMessageLength SIXTYFOUR_BIT_INTIGER_MARKER
      (set_readable (be32 0 ++ be32 70000 ++ []) fresh)
    = (set_readable [] fresh, Done len)
    /\ len = JS.toInt32 0 + 70000
    /\ (len = 0 * 2 ^ 32 + 70000 <-> 0 = 0).
Proof. apply (length64_exact_below_4GiB 0 70000 [] fresh); lia. Defined.

(** A frame that one call completes is completed in the same way when more
    bytes are buffered behind it, and those bytes are left in the buffer. *)
Theorem complete_frame_ignores_trailing_bytes (s s' : socket) (g : frame)
        (c : list Z) :
  readFrame s = (s', Done g) ->
  readFrame (push c s) = (push c s', Done g).
Proof. intros H. now apply stable_readFrame. Qed.

Lemma complete_frame_ignores_trailing_bytes_witness :
  readFrame (push [129; 130] (set_readable [129; 129; 1; 2; 3; 4; 73] fresh))
  = (push [129; 130] (set_readable [] fresh), Done (mkFrame true 1 true 1 [72])).
Proof.
  apply (complete_frame_ignores_trailing_bytes
           (set_readable [129; 129; 1; 2; 3; 4; 73] fresh)).
  reflexivity.
Defined.

(** ** Frames the server sends *)

Lemma fin_and_opcode_byte (op : Z) :
  0 <= op < 16 -> JS.toUint8 (Z.lor 0x80 op) = 128 + op.
Proof.
  intros Hop.
  pose proof (below_cases 16
    (fun op => JS.toUint8 (Z.lor 0x80 op) =? 128 + op) eq_refl op Hop) as H.
  now apply Z.eqb_eq in H.
Qed.

Lemma bind_Throw_left {A B} (m : M A) (k : A -> M B) s s' :
  m s = (s', Throw) -> bind m k s = (s', Throw).
Proof. intros H. unfold bind. now rewrite H. Qed.

Section Sending.

Variable toStringUtf8 : list Z -> list Z.

(** Every frame [sendMessage] writes has FIN set and the reserved bits and
    the MASK bit clear, and ends with the payload as given.  Such a frame is
    not one the server's own handler accepts: fed to [onSocketreadable] it
    is given up at the payload read without any reply. *)
Theorem sendMessage_frame_shape (message : list Z) (op : Z) (s t : socket)
        (rest : list Z) :
  0 <= op < 16 ->
  Z.of_nat (length message) < 2 ^ 32 ->
  ended s = false ->
  exists second ext s' t',
    sendMessage message op s = (s', Done tt)
    /\ wire s' = wire s ++ (128 + op) :: second :: ext ++ message
    /\ 0 <= second < 128
    /\ onSocketreadable toStringUtf8
         (set_readable ((128 + op) :: second :: ext ++ message ++ rest) t)
       = (t', Return)
    /\ wire t' = wire t /\ ended t' = ended t.
Proof.
  intros Hop Hlen Hopen.
  destruct (lengthEncoding_total (Z.of_nat (length message)))
    as (second & ext & Henc & Hsec & _); [lia|].
  exists second, ext. eexists. eexists.
  rewrite (sendMessage_wire message op s second ext Hopen (Henc s)).
  split; [reflexivity|]. cbn [wire].
  rewrite fin_and_opcode_byte by exact Hop.
  rewrite toUint8_byte by (unfold is_byte; lia).
  split; [reflexivity|]. split; [exact Hsec|].
  unfold onSocketreadable.
  rewrite (bind_Return _ _ _ _ (readFrame_unmasked _ _ _ t Hsec)).
  repeat split.
Qed.

Lemma echo_of_text_frame (fin : bool) (key payload rest : list Z) (s : socket) :
  length key = 4%nat ->
  Forall is_byte payload ->
  0 < Z.of_nat (length payload) <= MAX_HWM ->
  Z.of_nat (length (echoPrefix ++ toStringUtf8 payload)) < 2 ^ 32 ->
  ended s = false ->
  exists second ext,
    lengthEncoding (Z.of_nat (length (echoPrefix ++ toStringUtf8 payload))) s
    = (s, Done (second, ext))
    /\ onSocketreadable toStringUtf8
         (set_readable (clientFrame fin OPCODES.TEXT key payload ++ rest) s)
       = (mkSocket rest
            (wire s ++ [129; second] ++ ext ++ echoPrefix ++ toStringUtf8 payload)
            false
            (console s
             ++ [LogReceived (toStringUtf8 payload)
                   (Z.of_nat (length payload)) OPCODES.TEXT;
                 LogSent (echoPrefix ++ toStringUtf8 payload)
                   (Z.of_nat (length (echoPrefix ++ toStringUtf8 payload)))]),
          Done tt).
Proof.
  intros Hkey Hb HL Hlen Hopen.
  destruct (lengthEncoding_total
              (Z.of_nat (length (echoPrefix ++ toStringUtf8 payload))))
    as (second & ext & Henc & Hsec & _); [lia|].
  exists second, ext. split; [apply Henc|].
  unfold onSocketreadable.
  erewrite bind_Done;
    [| apply readFrame_clientFrame; try assumption; unfold OPCODES.TEXT; lia].
  unfold handleFrame. cbn [decoded messageLength opcode].
  rewrite (bind_Done _ _ _ _ _ eq_refl).
  change (OPCODES.TEXT =? OPCODES.TEXT) with true. cbv iota.
  rewrite (sendMessage_wire _ _ _ second ext) by (try apply Henc; exact Hopen).
  cbn [readable wire console set_readable].
  rewrite (toUint8_byte second) by (unfold is_byte; lia).
  rewrite <- !app_assoc. reflexivity.
Qed.

(** A masked text frame is answered by one unmasked text frame whose
    payload is ["Echo: "] followed by the decoded text, with the length
    form [sendMessage] picks for it; the bytes behind the frame stay
    buffered. *)
Theorem text_frame_echoed (fin : bool) (key payload rest : list Z) (s : socket) :
  length key = 4%nat ->
  Forall is_byte payload ->
  0 < Z.of_nat (length payload) <= MAX_HWM ->
  Z.of_nat (length (echoPrefix ++ toStringUtf8 payload)) < 2 ^ 32 ->
  ended s = false ->
  exists second ext,
    lengthEncoding (Z.of_nat (length (echoPrefix ++ toStringUtf8 payload))) s
    = (s, Done (second, ext))
    /\ onSocketreadable toStringUtf8
         (set_readable (clientFrame fin OPCODES.TEXT key payload ++ rest) s)
       = (mkSocket rest
            (wire s ++ [129; second] ++ ext ++ echoPrefix ++ toStringUtf8 payload)
            false
            (console s
             ++ [LogReceived (toStringUtf8 payload)
                   (Z.of_nat (length payload)) OPCODES.TEXT;
                 LogSent (echoPrefix ++ toStringUtf8 payload)
                   (Z.of_nat (length (echoPrefix ++ toStringUtf8 payload)))]),
          Done tt).
Proof. apply echo_of_text_frame. Qed.

(** A masked frame with an empty payload, whatever its opcode, never
    reaches the dispatch: the zero-length payload read comes back [null],
    the handler logs the failure and returns.  So an empty text frame is not
    echoed and a Close frame without a status code does not end the
    socket. *)
Theorem empty_payload_frame_dropped (firstByte : Z) (key rest : list Z)
        (s : socket) :
  length key = 4%nat ->
  onSocketreadable toStringUtf8
    (set_readable (firstByte :: 128 :: key ++ rest) s)
  = (mkSocket rest (wire s) (ended s) (console s ++ [LogFailedRead]), Return).
Proof.
  intros Hkey. unfold onSocketreadable. apply bind_Return.
  unfold readFrame.
  change (firstByte :: 128 :: key ++ rest) with ([firstByte] ++ [128] ++ key ++ rest).
  read_front [firstByte]. cbn [nth]. unfold readFrameAfter.
  read_front [128]. cbn [destructure1 nth].
  rewrite (bind_Done _ _ _ _ _ eq_refl).
  change (readMessageLength (lengthIndicatorInBits 128)) with (@ret Z 0).
  rewrite (bind_Done _ _ _ _ _ eq_refl).
  read_front key; [| rewrite Hkey; reflexivity].
  reflexivity.
Qed.

(** With nothing buffered the handler returns and changes nothing.  With a
    single byte buffered it takes the byte and fails on the missing second
    one: the exception leaves the handler and the byte is lost. *)
Theorem short_buffer_behaviour (b : Z) (s : socket) :
  onSocketreadable toStringUtf8 (set_readable [] s) = (set_readable [] s, Return)
  /\ onSocketreadable toStringUtf8 (set_readable [b] s) = (set_readable [] s, Throw).
Proof. split; reflexivity. Qed.

(** A header that announces an extended length which is not buffered yet
    makes the handler throw: the 16-bit form with fewer than two bytes
    behind it, the 64-bit form with fewer than four, or with the upper half
    but not the lower.  The bytes read so far are lost. *)
Theorem truncated_extended_length_throws (firstByte : Z) (rest : list Z)
        (s : socket) :
  (Z.of_nat (length rest) < 2 ->
   onSocketreadable toStringUtf8 (set_readable (firstByte :: 254 :: rest) s)
   = (set_readable rest s, Throw))
  /\ (Z.of_nat (length rest) < 4 ->
      onSocketreadable toStringUtf8 (set_readable (firstByte :: 255 :: rest) s)
      = (set_readable rest s, Throw))
  /\ (4 <= Z.of_nat (length rest) < 8 ->
      onSocketreadable toStringUtf8 (set_readable (firstByte :: 255 :: rest) s)
      = (set_readable (skipn 4 rest) s, Throw)).
Proof.
  assert (Hstart : forall second,
    readFrame (set_readable (firstByte :: second :: rest) s)
    = bind (readMessageLength (lengthIndicatorInBits second))
        (fun len =>
           maskKey <- socket_read 4 ;;
           encoded <- socket_read len ;;
           match encoded with
           | None => console_log LogFailedRead ;;; return_
           | Some enc =>
               dec <- unmask enc maskKey ;;
               ret (mkFrame (JS.toBoolean (Z.land firstByte 0x80))
                            (Z.land firstByte 0x0f)
                            (JS.toBoolean (Z.land second 0x80)) len dec)
           end) (set_readable rest s)).
  { intros second. unfold readFrame.
    change (firstByte :: second :: rest) with ([firstByte] ++ [second] ++ rest).
    read_front [firstByte]. cbn [nth]. unfold readFrameAfter.
    read_front [second]. cbn [destructure1 nth].
    now rewrite (bind_Done _ _ _ _ _ eq_refl). }
  unfold onSocketreadable. repeat split; intros Hlen;
    apply bind_Throw_left; rewrite Hstart; apply bind_Throw_left.
  - change (readMessageLength (lengthIndicatorInBits 254))
      with (b <- socket_read 2 ;; bs <- deref b ;; ret (Buffer.readUInt16BE bs)).
    erewrite (bind_Done (socket_read _));
      [| apply socket_read_null; [unfold MAX_HWM; lia | right; exact Hlen]].
    reflexivity.
  - change (lengthIndicatorInBits 255) with SIXTYFOUR_BIT_INTIGER_MARKER.
    unfold readMessageLength. cbn [Z.leb Z.eqb Z.compare Pos.compare
      Pos.compare_cont Pos.eqb SIXTYFOUR_BIT_INTIGER_MARKER
      SEVEN_BIT_INTIGER_MARKER SIXTEEN_BIT_INTIGER_MARKER].
    erewrite (bind_Done (socket_read _));
      [| apply socket_read_null; [unfold MAX_HWM; lia | right; exact Hlen]].
    reflexivity.
  - change (lengthIndicatorInBits 255) with SIXTYFOUR_BIT_INTIGER_MARKER.
    unfold readMessageLength. cbn [Z.leb Z.eqb Z.compare Pos.compare
      Pos.compare_cont Pos.eqb SIXTYFOUR_BIT_INTIGER_MARKER
      SEVEN_BIT_INTIGER_MARKER SIXTEEN_BIT_INTIGER_MARKER].
    rewrite <- (firstn_skipn 4 rest) at 1.
    read_front (firstn 4 rest); [| rewrite length_firstn; lia].
    cbn [deref]. rewrite (bind_Done _ _ _ _ _ eq_refl).
    erewrite (bind_Done (socket_read _));
      [| apply socket_read_null;
         [unfold MAX_HWM; lia
         | right; cbn [readable set_readable]; rewrite length_skipn; lia]].
    reflexivity.
Qed.

End Sending.

Lemma sendMessage_frame_shape_witness :
  exists second ext s' t',
    sendMessage [72; 105] 1 fresh = (s', Done tt)
    /\ wire s' = wire fresh ++ (128 + 1) :: second :: ext ++ [72; 105]
    /\ 0 <= second < 128
    /\ onSocketreadable utf8_id
         (set_readable ((128 + 1) :: second :: ext ++ [72; 105] ++ []) fresh)
       = (t', Return)
    /\ wire t' = wire fresh /\ ended t' = ended fresh.
Proof.
  apply (sendMessage_frame_shape utf8_id [72; 105] 1 fresh fresh []).
  - lia.
  - cbn. lia.
  - reflexivity.
Defined.

Lemma text_frame_echoed_witness :
  exists second ext,
    lengthEncoding (Z.of_nat (length (echoPrefix ++ utf8_id [72; 105]))) fresh
    = (fresh, Done (second, ext))
    /\ onSocketreadable utf8_id
         (set_readable (clientFrame true OPCODES.TEXT [1; 2; 3; 4] [72; 105] ++ [7])
            fresh)
       = (mkSocket [7]
            (wire fresh ++ [129; second] ++ ext ++ echoPrefix ++ utf8_id [72; 105])
            false
            (console fresh
             ++ [LogReceived (utf8_id [72; 105])
                   (Z.of_nat (length [72; 105])) OPCODES.TEXT;
                 LogSent (echoPrefix ++ utf8_id [72; 105])
                   (Z.of_nat (length (echoPrefix ++ utf8_id [72; 105])))]),
          Done tt).
Proof.
  apply (text_frame_echoed utf8_id true [1; 2; 3; 4] [72; 105] [7] fresh).
  - reflexivity.
  - repeat constructor; unfold is_byte; lia.
  - unfold MAX_HWM. cbn. lia.
  - cbn. lia.
  - reflexivity.
Defined.

Lemma empty_payload_frame_dropped_witness :
  onSocketreadable utf8_id (set_readable (136 :: 128 :: [1; 2; 3; 4] ++ []) fresh)
  = (mkSocket [] (wire fresh) (ended fresh) (console fresh ++ [LogFailedRead]),
     Return).
Proof.
  apply (empty_payload_frame_dropped utf8_id 136 [1; 2; 3; 4] [] fresh).
  reflexivity.
Defined.

Lemma truncated_extended_length_throws_witness :
  onSocketreadable utf8_id (set_readable (129 :: 254 :: [1]) fresh)
  = (set_readable [1] fresh, Throw)
  /\ onSocketreadable utf8_id (set_readable (129 :: 255 :: [0; 0; 0; 0; 0]) fresh)
     = (set_readable (skipn 4 [0; 0; 0; 0; 0]) fresh, Throw).
Proof.
  split.
  - apply (truncated_extended_length_throws utf8_id 129 [1] fresh). cbn. lia.
  - apply (truncated_extended_length_throws utf8_id 129 [0; 0; 0; 0; 0] fresh).
    cbn. lia.
Defined.

(** ** A frame whose payload has not arrived in full *)

Section Partial.

Variable toStringUtf8 : list Z -> list Z.

(** When the header and the mask key of a frame are buffered but fewer
    payload bytes than announced, the handler logs the failed read and
    returns.  The header and the key are off the buffer by then; only the
    payload bytes that had arrived are left, so the next call reads them as
    the start of a frame. *)
Theorem incomplete_payload_loses_header (firstByte len : Z)
        (key arrived : list Z) (s : socket) :
  0 < len <= MAX_HWM ->
  length key = 4%nat ->
  Z.of_nat (length arrived) < len ->
  onSocketreadable toStringUtf8
    (set_readable (firstByte :: clientLength len ++ key ++ arrived) s)
  = (mkSocket arrived (wire s) (ended s) (console s ++ [LogFailedRead]), Return).
Proof.
  intros Hlen Hkey Hshort. unfold onSocketreadable. apply bind_Return.
  unfold readFrame.
  change (firstByte :: clientLength len ++ key ++ arrived)
    with ([firstByte] ++ clientLength len ++ key ++ arrived).
  read_front [firstByte]. cbn [nth]. unfold readFrameAfter.
  match goal with
  | |- bind _ (fun sb => bind _ (fun sec => bind _ (fun n => @?K sec n))) _ = _ =>
      destruct (read_clientLength len (key ++ arrived) s K) as (sec & Hrun & _);
        [unfold MAX_HWM in Hlen; lia | rewrite Hrun]
  end.
  cbv beta.
  read_front key; [| rewrite Hkey; reflexivity].
  erewrite (bind_Done (socket_read _));
    [| apply socket_read_null; [lia | right; exact Hshort]].
  reflexivity.
Qed.

(** When the announced payload is buffered but the four key bytes are not
    (a short frame cut inside its mask key), the key read comes back
    [null], the payload read succeeds on the key bytes, and the unmasking
    loop throws on its first index. *)
Theorem payload_without_key_throws (firstByte len : Z) (tail : list Z)
        (s : socket) :
  0 < len <= 125 ->
  len <= Z.of_nat (length tail) < 4 ->
  onSocketreadable toStringUtf8
    (set_readable (firstByte :: (128 + len) :: tail) s)
  = (set_readable (skipn (Z.to_nat len) tail) s, Throw).
Proof.
  intros Hlen Htail. unfold onSocketreadable. apply bind_Throw_left.
  unfold readFrame.
  change (firstByte :: (128 + len) :: tail)
    with ([firstByte] ++ [128 + len] ++ tail).
  read_front [firstByte]. cbn [nth]. unfold readFrameAfter.
  read_front [128 + len]. cbn [destructure1 nth].
  rewrite (bind_Done _ _ _ _ _ eq_refl).
  unfold lengthIndicatorInBits, FIRST_BIT, readMessageLength,
    SEVEN_BIT_INTIGER_MARKER.
  replace (128 + len - 128) with len by lia.
  replace (len <=? 125) with true by (symmetry; apply Z.leb_le; lia).
  rewrite (bind_Done _ _ _ _ _ eq_refl).
  erewrite (bind_Done (socket_read _));
    [| apply socket_read_null; [unfold MAX_HWM; lia | right; cbn; lia]].
  rewrite <- (firstn_skipn (Z.to_nat len) tail) at 1.
  read_front (firstn (Z.to_nat len) tail); [| rewrite length_firstn; lia].
  destruct (firstn (Z.to_nat len) tail) as [|e enc] eqn:E.
  - apply (f_equal (@length Z)) in E. rewrite length_firstn in E. cbn in E. lia.
  - reflexivity.
Qed.

End Partial.

Lemma incomplete_payload_loses_header_witness :
  onSocketreadable utf8_id
    (set_readable (129 :: clientLength 5 ++ [1; 2; 3; 4] ++ [73; 107]) fresh)
  = (mkSocket [73; 107] (wire fresh) (ended fresh)
       (console fresh ++ [LogFailedRead]), Return).
Proof.
  apply (incomplete_payload_loses_header utf8_id 129 5 [1; 2; 3; 4] [73; 107] fresh).
  - unfold MAX_HWM. lia.
  - reflexivity.
  - cbn. lia.
Defined.

Lemma payload_without_key_throws_witness :
  onSocketreadable utf8_id (set_readable (129 :: (128 + 1) :: [1; 2]) fresh)
  = (set_readable (skipn (Z.to_nat 1) [1; 2]) fresh, Throw).
Proof.
  apply (payload_without_key_throws utf8_id 129 1 [1; 2] fresh).
  - lia.
  - cbn. lia.
Defined.

(** ** What the dispatch can be handed *)

Lemma unmask_with_key (enc key : list Z) :
  unmask enc (Some key) = ret (unmaskFrom 0 enc key).
Proof. destruct enc; reflexivity. Qed.

Lemma readMessageLength_positive (ind len : Z) (s s' : socket) :
  readMessageLength ind s = (s', Done len) -> 0 < len -> 0 < ind <= 127.
Proof.
  unfold readMessageLength, SEVEN_BIT_INTIGER_MARKER,
    SIXTEEN_BIT_INTIGER_MARKER, SIXTYFOUR_BIT_INTIGER_MARKER.
  intros H Hpos.
  destruct (ind <=? 125) eqn:E1.
  { injection H as _ <-. apply Z.leb_le in E1. lia. }
  destruct (ind =? 126) eqn:E2; [apply Z.eqb_eq in E2; lia|].
  destruct (ind =? 127) eqn:E3; [apply Z.eqb_eq in E3; lia|].
  injection H as _ <-. lia.
Qed.

(** Whatever bytes are buffered, a frame that the reader completes is
    masked, has a non-empty payload of exactly the computed length (at most
    1 GiB), an opcode between 0 and 15, and a payload made of bytes. *)
Theorem completed_frame_invariants (s s' : socket) (g : frame) :
  readFrame s = (s', Done g) ->
  Forall is_byte (readable s) ->
  isMasked g = true
  /\ 0 < messageLength g <= MAX_HWM
  /\ Z.of_nat (length (decoded g)) = messageLength g
  /\ 0 <= opcode g < 16
  /\ Forall is_byte (decoded g).
Proof.
  unfold readFrame. intros H Hbytes.
  apply bind_Done_inv in H. destruct H as (s1 & r1 & Hread1 & H).
  destruct (socket_read_inv _ _ _ _ Hread1)
    as [[[Hr | Hr] _] | (a1 & Hr & _ & Hlen1 & _ & Hbuf1 & _)];
    try discriminate Hr; injection Hr as ->; [discriminate H|].
  unfold readFrameAfter in H.
  apply bind_Done_inv in H. destruct H as (s2 & r2 & Hread2 & H).
  destruct (socket_read_inv _ _ _ _ Hread2)
    as [[[Hr | Hr] _] | (a2 & Hr & _ & Hlen2 & _ & Hbuf2 & _)];
    try discriminate Hr; injection Hr as ->; [discriminate H|].
  cbn [destructure1] in H. rewrite (bind_Done _ _ _ _ _ eq_refl) in H.
  apply bind_Done_inv in H. destruct H as (s3 & len & Hlen & H).
  apply bind_Done_inv in H. destruct H as (s4 & r4 & Hread4 & H).
  destruct (socket_read_inv _ _ _ _ Hread4)
    as [[[Hr | Hr] _] | (key & Hr & _ & Hlen4 & _ & Hbuf4 & _)];
    try discriminate Hr; injection Hr as ->.
  { now apply neverDone_without_key in H. }
  apply bind_Done_inv in H. destruct H as (s5 & r5 & Hread5 & H).
  destruct (socket_read_inv _ _ _ _ Hread5)
    as [[[Hr | Hr] _] | (enc & Hr & Hne & Hlen5 & Hmax & Hbuf5 & _)];
    try discriminate Hr; injection Hr as ->; [discriminate H|].
  rewrite unmask_with_key, (bind_Done _ _ _ _ _ eq_refl) in H.
  injection H as _ <-.
  cbn [isMasked messageLength decoded opcode].
  assert (Hpos : 0 < len).
  { rewrite <- Hlen5. destruct enc; [contradiction | cbn [length]; lia]. }
  assert (Hsecond : is_byte (nth 0 a2 0)).
  { apply is_byte_nth. rewrite Hbuf1, Hbuf2 in Hbytes.
    apply Forall_app in Hbytes. destruct Hbytes as [_ Hbytes].
    apply Forall_app in Hbytes. now destruct Hbytes. }
  pose proof (readMessageLength_positive _ _ _ _ Hlen Hpos) as Hind.
  unfold lengthIndicatorInBits, FIRST_BIT in Hind.
  repeat split.
  - rewrite mask_bit_of_byte by exact Hsecond. apply Z.leb_le. lia.
  - exact Hpos.
  - exact Hmax.
  - rewrite unmaskFrom_length. exact Hlen5.
  - change 0x0f with (Z.ones 4). rewrite Z.land_ones by lia.
    apply Z.mod_pos_bound. lia.
  - change 0x0f with (Z.ones 4). rewrite Z.land_ones by lia.
    apply Z.mod_pos_bound. lia.
  - apply unmaskFrom_bytes.
Qed.

Lemma completed_frame_invariants_witness :
  isMasked (mkFrame true 1 true 2 [72; 105]) = true
  /\ 0 < messageLength (mkFrame true 1 true 2 [72; 105]) <= MAX_HWM
  /\ Z.of_nat (length (decoded (mkFrame true 1 true 2 [72; 105])))
     = messageLength (mkFrame true 1 true 2 [72; 105])
  /\ 0 <= opcode (mkFrame true 1 true 2 [72; 105]) < 16
  /\ Forall is_byte (decoded (mkFrame true 1 true 2 [72; 105])).
Proof.
  apply (completed_frame_invariants
           (set_readable [129; 130; 1; 2; 3; 4; 73; 107] fresh)
           (set_readable [] fresh)).
  - reflexivity.
  - repeat constructor; unfold is_byte; lia.
Defined.

Lemma ping_answered_witness :
  onSocketreadable utf8_id
    (set_readable (clientFrame true OPCODES.PING [1; 2; 3; 4] [97; 98; 99] ++ [])
       fresh)
  = (mkSocket [] (wire fresh ++ controlFrame OPCODES.PONG [97; 98; 99]) false
       (console fresh
        ++ [LogReceived (utf8_id [97; 98; 99])
              (Z.of_nat (length [97; 98; 99])) OPCODES.PING]
        ++ [LogPingReceived]),
     Done tt).
Proof.
  apply (ping_answered utf8_id true [1; 2; 3; 4] [97; 98; 99] [] fresh).
  - reflexivity.
  - repeat constructor; unfold is_byte; lia.
  - cbn. lia.
  - reflexivity.
Defined.

Lemma close_ends_without_reply_witness :
  onSocketreadable utf8_id
    (set_readable (clientFrame true OPCODES.CLOSE [1; 2; 3; 4] [79; 75] ++ [5])
       fresh)
  = (mkSocket [5] (wire fresh) true
       (console fresh
        ++ [LogReceived (utf8_id [79; 75]) (Z.of_nat (length [79; 75]))
              OPCODES.CLOSE]
        ++ [LogCloseReceived]),
     Done tt).
Proof.
  apply (close_ends_without_reply utf8_id true [1; 2; 3; 4] [79; 75] [5] fresh).
  - reflexivity.
  - repeat constructor; unfold is_byte; lia.
  - unfold MAX_HWM. cbn. lia.
Defined.

(** ** Several frames *)

(** Two frames that arrive as two chunks are both decoded, one per call.
    When they arrive in one chunk the call decodes only the first; the
    second stays buffered and is decoded by the next call, even if that call
    brings no new bytes. *)
Theorem one_frame_per_call (fin1 fin2 : bool) (op1 op2 : Z)
        (key1 key2 payload1 payload2 : list Z) :
  0 <= op1 < 16 -> 0 <= op2 < 16 ->
  length key1 = 4%nat -> length key2 = 4%nat ->
  Forall is_byte payload1 -> Forall is_byte payload2 ->
  0 < Z.of_nat (length payload1) <= MAX_HWM ->
  0 < Z.of_nat (length payload2) <= MAX_HWM ->
  framesRead [clientFrame fin1 op1 key1 payload1;
              clientFrame fin2 op2 key2 payload2] fresh
  = [mkFrame fin1 op1 true (Z.of_nat (length payload1)) payload1;
     mkFrame fin2 op2 true (Z.of_nat (length payload2)) payload2]
  /\ framesRead [clientFrame fin1 op1 key1 payload1
                 ++ clientFrame fin2 op2 key2 payload2] fresh
     = [mkFrame fin1 op1 true (Z.of_nat (length payload1)) payload1]
  /\ framesRead [clientFrame fin1 op1 key1 payload1
                 ++ clientFrame fin2 op2 key2 payload2; []] fresh
     = [mkFrame fin1 op1 true (Z.of_nat (length payload1)) payload1;
        mkFrame fin2 op2 true (Z.of_nat (length payload2)) payload2].
Proof.
  intros Hop1 Hop2 Hk1 Hk2 Hb1 Hb2 HL1 HL2.
  pose proof (readFrame_clientFrame fin1 op1 key1 payload1 [] fresh
                Hop1 Hk1 Hb1 HL1) as H1.
  pose proof (readFrame_clientFrame fin2 op2 key2 payload2 [] fresh
                Hop2 Hk2 Hb2 HL2) as H2.
  pose proof (readFrame_clientFrame fin1 op1 key1 payload1
                (clientFrame fin2 op2 key2 payload2) fresh
                Hop1 Hk1 Hb1 HL1) as H12.
  rewrite app_nil_r in H1, H2.
  repeat split; cbn [framesRead]; unfold push; cbn [readable fresh app].
  - rewrite H1. cbn [readable set_readable app]. fold fresh.
    change (set_readable (clientFrame fin2 op2 key2 payload2)
              (set_readable [] fresh))
      with (set_readable (clientFrame fin2 op2 key2 payload2) fresh).
    now rewrite H2.
  - now rewrite H12.
  - rewrite H12. cbn [readable set_readable app]. rewrite app_nil_r.
    change (set_readable (clientFrame fin2 op2 key2 payload2)
              (set_readable (clientFrame fin2 op2 key2 payload2) fresh))
      with (set_readable (clientFrame fin2 op2 key2 payload2) fresh).
    now rewrite H2.
Qed.

Lemma one_frame_per_call_witness :
  framesRead [clientFrame true 1 [1; 2; 3; 4] [72; 105]
              ++ clientFrame true 9 [5; 6; 7; 8] [97]; []] fresh
  = [mkFrame true 1 true (Z.of_nat (length [72; 105])) [72; 105];
     mkFrame true 9 true (Z.of_nat (length [97])) [97]].
Proof.
  apply (one_frame_per_call true true 1 9 [1; 2; 3; 4] [5; 6; 7; 8] [72; 105] [97]);
    try reflexivity; try lia;
    try (repeat constructor; unfold is_byte; lia);
    unfold MAX_HWM; cbn; lia.
Defined.

(** ** What a handler run may change *)

Ltac extends_parts := unfold extends; split; [|split; [|split]].

Lemma extends_refl (s : socket) : extends s s.
Proof.
  extends_parts; [exists [] | exists [] | exists [] | auto];
    now rewrite ?app_nil_r.
Qed.

Lemma extends_trans (a b c : socket) : extends a b -> extends b c -> extends a c.
Proof.
  intros ([u1 H1] & [w1 H2] & [l1 H3] & H4) ([u2 H5] & [w2 H6] & [l2 H7] & H8).
  extends_parts.
  - exists (u1 ++ u2). now rewrite H1, H5, app_assoc.
  - exists (w1 ++ w2). now rewrite H6, H2, app_assoc.
  - exists (l1 ++ l2). now rewrite H7, H3, app_assoc.
  - auto.
Qed.

Lemma monotone_bind {A B} (m : M A) (k : A -> M B) :
  monotone m -> (forall a, monotone (k a)) -> monotone (bind m k).
Proof.
  intros Hm Hk s s' o. unfold bind.
  destruct (m s) as [s1 [a| |]] eqn:E; intros H.
  - eapply extends_trans; [exact (Hm _ _ _ E) | exact (Hk _ _ _ _ H)].
  - injection H as <- _. exact (Hm _ _ _ E).
  - injection H as <- _. exact (Hm _ _ _ E).
Qed.

Lemma monotone_pure {A} (m : M A) : pureM m -> monotone m.
Proof.
  intros [o' Hm] s s' o H. rewrite Hm in H. injection H as <- _.
  apply extends_refl.
Qed.

Lemma monotone_read (n : Z) : monotone (socket_read n).
Proof.
  intros s s' o H.
  destruct (socket_read_inv _ _ _ _ H) as [[_ ->] | (a & _ & _ & _ & _ & Hbuf & ->)].
  - apply extends_refl.
  - extends_parts; [now exists a | exists [] | exists [] | auto];
      cbn; now rewrite app_nil_r.
Qed.

Lemma monotone_write (chunk : list Z) : monotone (socket_write chunk).
Proof.
  intros s s' o. unfold socket_write. destruct (ended s) eqn:E; intros H;
    injection H as <- _; [apply extends_refl|].
  extends_parts; [exists [] | now exists chunk | exists [] | cbn; congruence];
    cbn; now rewrite ?app_nil_r.
Qed.

Lemma monotone_end : monotone socket_end.
Proof.
  intros s s' o H. injection H as <- _.
  extends_parts; [exists [] | exists [] | exists [] | auto];
    cbn; now rewrite ?app_nil_r.
Qed.

Lemma monotone_log (l : logline) : monotone (console_log l).
Proof.
  intros s s' o H. injection H as <- _.
  extends_parts; [exists [] | exists [] | now exists [l] | auto];
    cbn; now rewrite ?app_nil_r.
Qed.

#[local] Hint Resolve monotone_pure monotone_read monotone_write monotone_end
  monotone_log : handler.

Ltac monotone_steps :=
  repeat match goal with
         | |- monotone (if ?c then _ else _) => destruct c
         | |- monotone (match ?x with Some _ => _ | None => _ end) => destruct x
         | |- monotone (match ?x with (_, _) => _ end) => destruct x
         | |- monotone (bind _ _) => apply monotone_bind; [|intros ?]
         end; auto with handler.

Lemma monotone_readFrame : monotone readFrame.
Proof.
  unfold readFrame, readFrameAfter, readMessageLength. monotone_steps.
Qed.

Lemma monotone_lengthEncoding (n : Z) : monotone (lengthEncoding n).
Proof. unfold lengthEncoding. monotone_steps. Qed.

Lemma monotone_sendMessage (message : list Z) (op : Z) :
  monotone (sendMessage message op).
Proof.
  unfold sendMessage.
  apply monotone_bind; [apply monotone_lengthEncoding|]. intros enc.
  monotone_steps.
Qed.

Lemma monotone_sendPong (data : list Z) : monotone (sendPong data).
Proof. unfold sendPong. monotone_steps. Qed.

(** Whatever is buffered and whatever the state of the socket, one run of
    the frame handler only takes bytes off the front of the buffer, only
    appends to what has been written and logged, and never reopens an ended
    socket; this holds as well when the run ends by [return] or by an
    exception. *)
Theorem handler_only_consumes_and_appends (toStringUtf8 : list Z -> list Z)
        (s : socket) :
  extends s (fst (onSocketreadable toStringUtf8 s)).
Proof.
  destruct (onSocketreadable toStringUtf8 s) as [s' o] eqn:E. cbn [fst].
  revert s s' o E. change (monotone (onSocketreadable toStringUtf8)).
  unfold onSocketreadable, handleFrame.
  apply monotone_bind; [apply monotone_readFrame|]. intros f.
  apply monotone_bind; [auto with handler|]. intros _.
  monotone_steps;
    auto using monotone_sendMessage, monotone_sendPong with handler.
Qed.

(** ** The upgrade *)

Lemma base64_of_digest_shape (bs : list Z) :
  length bs = 20%nat ->
  String.length (Crypto.base64 bs) = 28%nat
  /\ String.get 27 (Crypto.base64 bs) = Some "="%char.
Proof.
  intros H.
  do 20 (destruct bs as [|? bs]; [discriminate H|]).
  destruct bs; [|discriminate H].
  split; reflexivity.
Qed.

Lemma sha1_length (msg : list Z) : length (Crypto.sha1 msg) = 20%nat.
Proof. reflexivity. Qed.

Section Upgrade.

Variable webSocketKey : option string.

(** The upgrade handler answers every request the same way, with or without
    a [Sec-WebSocket-Key]: on an open socket it writes the 101 response whose
    accept token is computed from the key text, or from the text
    ["undefined"] when the header is missing (the token is then
    [gH2cR3x4MfGXKljgIwL3fMYv0sY=]), and nothing else.  The token always has
    28 characters and ends with [=]. *)
Theorem upgrade_always_accepts (s : socket) :
  ended s = false ->
  onSocketUpgrade webSocketKey s
  = (mkSocket (readable s)
       (wire s
        ++ bytes_of_string
             ("HTTP/1.1 101 Switching Protocols" ++ CRLF
              ++ "Upgrade: websocket" ++ CRLF
              ++ "Connection: Upgrade" ++ CRLF
              ++ "Sec-WebSocket-Accept: "
              ++ createSocketAccept (keyText webSocketKey) ++ CRLF
              ++ CRLF))
       false (console s),
     Done tt)
  /\ String.length (createSocketAccept (keyText webSocketKey)) = 28%nat
  /\ String.get 27 (createSocketAccept (keyText webSocketKey)) = Some "="%char
  /\ (webSocketKey = None ->
      createSocketAccept (keyText webSocketKey)
      = "gH2cR3x4MfGXKljgIwL3fMYv0sY="%string).
Proof.
  intros Hopen. split; [| split; [| split]].
  - unfold onSocketUpgrade, socket_write. rewrite Hopen.
    unfold prepareHandshakeHeader.
    generalize (createSocketAccept (keyText webSocketKey)) as token.
    intros token. cbn [join]. rewrite !append_assoc. reflexivity.
  - apply base64_of_digest_shape, sha1_length.
  - apply base64_of_digest_shape, sha1_length.
  - intros ->. vm_compute. reflexivity.
Qed.

End Upgrade.

Lemma upgrade_always_accepts_witness :
  String.length (createSocketAccept (keyText None)) = 28%nat
  /\ createSocketAccept (keyText None) = "gH2cR3x4MfGXKljgIwL3fMYv0sY="%string.
Proof.
  destruct (upgrade_always_accepts None fresh) as (_ & Hlen & _ & Hmissing).
  - reflexivity.
  - split; [exact Hlen | now apply Hmissing].
Defined.

(** After the upgrade the connection is ready for frames: the handshake
    response is followed on the wire by the echo of the first text frame. *)
Theorem upgrade_then_echo (toStringUtf8 : list Z -> list Z) (key : option string)
        (fin : bool) (maskKey payload : list Z) :
  length maskKey = 4%nat ->
  Forall is_byte payload ->
  0 < Z.of_nat (length payload) ->
  Z.of_nat (length (echoPrefix ++ toStringUtf8 payload)) <= 125 ->
  Z.of_nat (length payload) <= 125 ->
  wire (fst (deliver toStringUtf8 (clientFrame fin OPCODES.TEXT maskKey payload)
               (fst (onSocketUpgrade key fresh))))
  = bytes_of_string (prepareHandshakeHeader (keyText key))
    ++ [129; Z.of_nat (length (echoPrefix ++ toStringUtf8 payload))]
    ++ echoPrefix ++ toStringUtf8 payload.
Proof.
  intros Hkey Hb Hpos Hecho Hlen.
  unfold deliver, push, onSocketUpgrade, socket_write.
  cbn [fst ended fresh readable app wire console set_readable].
  set (hdr := bytes_of_string (prepareHandshakeHeader (keyText key))).
  rewrite <- (app_nil_r (clientFrame fin OPCODES.TEXT maskKey payload)).
  change (mkSocket (clientFrame fin OPCODES.TEXT maskKey payload ++ []) hdr false [])
    with (set_readable (clientFrame fin OPCODES.TEXT maskKey payload ++ [])
            (mkSocket [] hdr false [])).
  destruct (echo_of_text_frame toStringUtf8 fin maskKey payload []
              (mkSocket [] hdr false []))
    as (second & ext & Henc & Hrun); try assumption; try reflexivity.
  - unfold MAX_HWM. lia.
  - lia.
  - rewrite Hrun. cbn [fst wire].
    rewrite lengthEncoding_small in Henc by exact Hecho.
    injection Henc as <- <-. reflexivity.
Qed.

Lemma upgrade_then_echo_witness :
  wire (fst (deliver utf8_id (clientFrame true OPCODES.TEXT [1; 2; 3; 4] [72; 105])
               (fst (onSocketUpgrade (Some "dGhlIHNhbXBsZSBub25jZQ=="%string) fresh))))
  = bytes_of_string
      (prepareHandshakeHeader (keyText (Some "dGhlIHNhbXBsZSBub25jZQ=="%string)))
    ++ [129; Z.of_nat (length (echoPrefix ++ utf8_id [72; 105]))]
    ++ echoPrefix ++ utf8_id [72; 105].
Proof.
  apply (upgrade_then_echo utf8_id (Some "dGhlIHNhbXBsZSBub25jZQ=="%string)
           true [1; 2; 3; 4] [72; 105]).
  - reflexivity.
  - repeat constructor; unfold is_byte; lia.
  - cbn. lia.
  - cbn. lia.
  - cbn. lia.
Defined.

(** * The executable hash and encoding against their standards *)

(** ** The round functions and constants *)

Lemma lor_lxor_disjoint (p q : Z) : Z.land p q = 0 -> Z.lor p q = Z.lxor p q.
Proof.
  intros H. apply Z.bits_inj'. intros n Hn.
  rewrite Z.lor_spec, Z.lxor_spec.
  apply (f_equal (fun x => Z.testbit x n)) in H.
  rewrite Z.land_spec, Z.bits_0 in H.
  destruct (Z.testbit p n), (Z.testbit q n); try reflexivity; discriminate.
Qed.

Lemma Ch_model (b c d : Z) :
  Z.lor (Z.land b c) (Z.land (Crypto.w32 (Z.lnot b)) d) = FIPS180.Ch b c d.
Proof.
  unfold FIPS180.Ch, Crypto.w32. apply lor_lxor_disjoint.
  apply Z.bits_inj'. intros n Hn.
  rewrite !Z.land_spec, Z.bits_0.
  destruct (Z.lt_ge_cases n 32) as [Hlo | Hhi].
  - rewrite Z.mod_pow2_bits_low by lia. rewrite Z.lnot_spec by lia.
    destruct (Z.testbit b n), (Z.testbit c n), (Z.testbit d n); reflexivity.
  - rewrite Z.mod_pow2_bits_high by lia.
    destruct (Z.testbit b n), (Z.testbit c n), (Z.testbit d n); reflexivity.
Qed.

Lemma Maj_model (b c d : Z) :
  Z.lor (Z.lor (Z.land b c) (Z.land b d)) (Z.land c d) = FIPS180.Maj b c d.
Proof.
  unfold FIPS180.Maj. apply Z.bits_inj'. intros n Hn.
  rewrite !Z.lor_spec, !Z.lxor_spec, !Z.land_spec.
  destruct (Z.testbit b n), (Z.testbit c n), (Z.testbit d n); reflexivity.
Qed.

Lemma f_model (t : nat) (b c d : Z) :
  Crypto.f (Z.of_nat t) b c d = FIPS180.f t b c d.
Proof.
  unfold Crypto.f, FIPS180.f.
  destruct (t <=? 19)%nat eqn:E1.
  { apply Nat.leb_le in E1.
    replace (Z.of_nat t <? 20) with true by (symmetry; apply Z.ltb_lt; lia).
    apply Ch_model. }
  apply Nat.leb_gt in E1.
  replace (Z.of_nat t <? 20) with false by (symmetry; apply Z.ltb_ge; lia).
  destruct (t <=? 39)%nat eqn:E2.
  { apply Nat.leb_le in E2.
    replace (Z.of_nat t <? 40) with true by (symmetry; apply Z.ltb_lt; lia).
    reflexivity. }
  apply Nat.leb_gt in E2.
  replace (Z.of_nat t <? 40) with false by (symmetry; apply Z.ltb_ge; lia).
  destruct (t <=? 59)%nat eqn:E3.
  { apply Nat.leb_le in E3.
    replace (Z.of_nat t <? 60) with true by (symmetry; apply Z.ltb_lt; lia).
    apply Maj_model. }
  apply Nat.leb_gt in E3.
  replace (Z.of_nat t <? 60) with false by (symmetry; apply Z.ltb_ge; lia).
  reflexivity.
Qed.

Lemma K_model (t : nat) : Crypto.k (Z.of_nat t) = FIPS180.K t.
Proof.
  unfold Crypto.k, FIPS180.K.
  destruct (t <=? 19)%nat eqn:E1.
  { apply Nat.leb_le in E1.
    now replace (Z.of_nat t <? 20) with true by (symmetry; apply Z.ltb_lt; lia). }
  apply Nat.leb_gt in E1.
  replace (Z.of_nat t <? 20) with false by (symmetry; apply Z.ltb_ge; lia).
  destruct (t <=? 39)%nat eqn:E2.
  { apply Nat.leb_le in E2.
    now replace (Z.of_nat t <? 40) with true by (symmetry; apply Z.ltb_lt; lia). }
  apply Nat.leb_gt in E2.
  replace (Z.of_nat t <? 40) with false by (symmetry; apply Z.ltb_ge; lia).
  destruct (t <=? 59)%nat eqn:E3.
  { apply Nat.leb_le in E3.
    now replace (Z.of_nat t <? 60) with true by (symmetry; apply Z.ltb_lt; lia). }
  apply Nat.leb_gt in E3.
  now replace (Z.of_nat t <? 60) with false by (symmetry; apply Z.ltb_ge; lia).
Qed.

(** ** Padding *)

Lemma zero_bytes_model (n : Z) :
  (FIPS180.zeroBits (8 * n) - 7) / 8 = (55 - n) mod 64.
Proof.
  unfold FIPS180.zeroBits.
  pose proof (Z.div_mod (55 - n) 64 ltac:(lia)) as Hm.
  pose proof (Z.mod_pos_bound (55 - n) 64 ltac:(lia)) as Hb.
  replace (448 - (8 * n + 1)) with (8 * ((55 - n) mod 64) + 7 + ((55 - n) / 64) * 512)
    by lia.
  rewrite Z.mod_add by lia.
  rewrite Z.mod_small by lia.
  replace (8 * ((55 - n) mod 64) + 7 - 7) with (((55 - n) mod 64) * 8) by lia.
  apply Z.div_mul. lia.
Qed.

Lemma div_pow2_mod256_of_low32 (v k : Z) :
  0 <= v -> 0 <= k <= 24 ->
  (v mod 2 ^ 32) / 2 ^ k mod 256 = v / 2 ^ k mod 256.
Proof.
  intros Hv Hk. apply Z.bits_inj'. intros n Hn.
  change 256 with (2 ^ 8).
  destruct (Z.lt_ge_cases n 8) as [Hlo | Hhi].
  - rewrite !Z.mod_pow2_bits_low by lia.
    rewrite !Z.div_pow2_bits by lia.
    rewrite Z.mod_pow2_bits_low by lia. reflexivity.
  - rewrite !Z.mod_pow2_bits_high by lia. reflexivity.
Qed.

Lemma lengthBlock_model (l : Z) :
  0 <= l ->
  FIPS180.lengthBlock l = be32 (l / 2 ^ 32) ++ be32 (l mod 2 ^ 32).
Proof.
  intros Hl. unfold FIPS180.lengthBlock, be32. cbn [map app Z.of_nat].
  change (8 * Z.of_nat 0) with 0. change (2 ^ 0) with 1.
  rewrite Z.div_1_r.
  rewrite !Z.div_div by lia.
  rewrite <- !Z.pow_add_r by lia.
  rewrite (div_pow2_mod256_of_low32 l 24), (div_pow2_mod256_of_low32 l 16),
    (div_pow2_mod256_of_low32 l 8) by lia.
  pose proof (div_pow2_mod256_of_low32 l 0 Hl ltac:(lia)) as H0.
  change (2 ^ 0) with 1 in H0. rewrite !Z.div_1_r in H0. rewrite H0.
  reflexivity.
Qed.

Lemma pad_model (msg : list Z) : Crypto.pad msg = FIPS180.padded msg.
Proof.
  unfold Crypto.pad, FIPS180.padded.
  rewrite zero_bytes_model, lengthBlock_model by lia.
  reflexivity.
Qed.

(** ** Parsing the blocks *)

Lemma nth_skipn_Z (m j : nat) (l : list Z) :
  nth j (skipn m l) 0 = nth (m + j) l 0.
Proof.
  revert l. induction m as [|m IH]; intros l; [reflexivity|].
  destruct l as [|x l]; [now destruct j | apply IH].
Qed.

Lemma nth_firstn_Z (a j : nat) (l : list Z) :
  (j < a)%nat -> nth j (firstn a l) 0 = nth j l 0.
Proof.
  revert j l. induction a as [|a IH]; intros j l Hj; [lia|].
  destruct l as [|x l]; [now destruct j|].
  destruct j as [|j]; [reflexivity | cbn [firstn nth]; apply IH; lia].
Qed.

(** The words of the executable parser, by position. *)
Lemma words_by_position (n : nat) (q : list Z) :
  Crypto.words n q
  = map (fun t => Buffer.readUInt32BE (firstn 4 (skipn (4 * t) q))) (seq 0 n).
Proof.
  revert q. induction n as [|n IH]; intros q; [reflexivity|].
  cbn [Crypto.words]. rewrite IH.
  cbn [seq map]. f_equal.
  rewrite <- seq_shift, map_map.
  apply map_ext. intros t.
  rewrite skipn_skipn. do 3 f_equal. lia.
Qed.

Lemma word_model (p : list Z) (i t : nat) :
  (t < 16)%nat ->
  Buffer.readUInt32BE (firstn 4 (skipn (4 * t) (firstn 64 (skipn (64 * i) p))))
  = FIPS180.word p i t.
Proof.
  intros Ht. unfold Buffer.readUInt32BE, FIPS180.word.
  rewrite !nth_firstn_Z by lia.
  rewrite !nth_skipn_Z.
  rewrite !nth_firstn_Z by lia.
  rewrite !nth_skipn_Z.
  replace (64 * i + (4 * t + 0))%nat with (64 * i + 4 * t)%nat by lia.
  replace (64 * i + (4 * t + 1))%nat with (64 * i + 4 * t + 1)%nat by lia.
  replace (64 * i + (4 * t + 2))%nat with (64 * i + 4 * t + 2)%nat by lia.
  replace (64 * i + (4 * t + 3))%nat with (64 * i + 4 * t + 3)%nat by lia.
  change (2 ^ 24) with (256 * 256 * 256). change (2 ^ 16) with (256 * 256).
  change (2 ^ 8) with 256. ring.
Qed.

Lemma W_length (p : list Z) (i n : nat) : length (FIPS180.W p i n) = n.
Proof.
  induction n as [|n IH]; [reflexivity|].
  cbn [FIPS180.W]. rewrite length_app, IH. cbn. lia.
Qed.

Lemma W_first_16 (p : list Z) (i : nat) :
  Crypto.words 16 (firstn 64 (skipn (64 * i) p)) = FIPS180.W p i 16.
Proof.
  rewrite words_by_position.
  transitivity (map (FIPS180.word p i) (seq 0 16)); [| reflexivity].
  apply map_ext_in. intros t Ht. apply in_seq in Ht.
  apply word_model. lia.
Qed.

(** ** The message schedule *)

Lemma schedule_model (p : list Z) (i n m : nat) :
  (16 <= m)%nat ->
  Crypto.schedule n (rev (FIPS180.W p i m)) = rev (FIPS180.W p i (m + n)).
Proof.
  revert m. induction n as [|n IH]; intros m Hm.
  - now rewrite Nat.add_0_r.
  - cbn [Crypto.schedule].
    replace (m + S n)%nat with (S m + n)%nat by lia.
    rewrite <- IH by lia. f_equal.
    cbn [FIPS180.W]. rewrite rev_unit.
    replace (m <=? 15)%nat with false by (symmetry; apply Nat.leb_gt; lia).
    f_equal.
    pose proof (W_length p i m) as Hlen.
    rewrite !rev_nth by lia. rewrite Hlen.
    unfold Crypto.rotl, FIPS180.ROTL, Crypto.w32.
    rewrite <- !Z.lxor_assoc. reflexivity.
Qed.



(** ** The eighty rounds and the block loop *)

Lemma rounds_model (ws l : list Z) (t0 : nat) (s : Crypto.state) :
  (forall j, (j < length l)%nat -> nth j l 0 = nth (t0 + j) ws 0) ->
  toVars (Crypto.rounds (Z.of_nat t0) l s)
  = fold_left (FIPS180.step ws) (seq t0 (length l)) (toVars s).
Proof.
  revert t0 s. induction l as [|w l IH]; intros t0 s Hnth; [reflexivity|].
  cbn [Crypto.rounds length seq fold_left].
  replace (Z.of_nat t0 + 1) with (Z.of_nat (S t0)) by lia.
  rewrite IH.
  - f_equal. unfold toVars, FIPS180.step.
    cbn [Crypto.ha Crypto.hb Crypto.hc Crypto.hd Crypto.he
         FIPS180.va FIPS180.vb FIPS180.vc FIPS180.vd FIPS180.ve].
    rewrite f_model, K_model.
    specialize (Hnth 0%nat ltac:(cbn; lia)). cbn [nth] in Hnth.
    rewrite Nat.add_0_r in Hnth. rewrite <- Hnth.
    reflexivity.
  - intros j Hj. specialize (Hnth (S j) ltac:(cbn; lia)). cbn [nth] in Hnth.
    rewrite Hnth. f_equal. lia.
Qed.

Lemma rounds_model_all (ws : list Z) (s : Crypto.state) :
  toVars (Crypto.rounds 0 ws s)
  = fold_left (FIPS180.step ws) (seq 0 (length ws)) (toVars s).
Proof. exact (rounds_model ws ws 0 s (fun j _ => eq_refl)). Qed.

Lemma sum_words_model (h r : Crypto.state) :
  toVars (Crypto.mkState (Crypto.w32 (Crypto.ha h + Crypto.ha r))
            (Crypto.w32 (Crypto.hb h + Crypto.hb r))
            (Crypto.w32 (Crypto.hc h + Crypto.hc r))
            (Crypto.w32 (Crypto.hd h + Crypto.hd r))
            (Crypto.w32 (Crypto.he h + Crypto.he r)))
  = FIPS180.mkVars
      ((FIPS180.va (toVars r) + FIPS180.va (toVars h)) mod 2 ^ 32)
      ((FIPS180.vb (toVars r) + FIPS180.vb (toVars h)) mod 2 ^ 32)
      ((FIPS180.vc (toVars r) + FIPS180.vc (toVars h)) mod 2 ^ 32)
      ((FIPS180.vd (toVars r) + FIPS180.vd (toVars h)) mod 2 ^ 32)
      ((FIPS180.ve (toVars r) + FIPS180.ve (toVars h)) mod 2 ^ 32).
Proof.
  destruct h, r. unfold toVars, Crypto.w32. cbn.
  f_equal; f_equal; apply Z.add_comm.
Qed.

Lemma compress_unfold (h : Crypto.state) (block : list Z) :
  Crypto.compress h block
  = let r := Crypto.rounds 0
               (rev (Crypto.schedule 64 (rev (Crypto.words 16 block)))) h in
    Crypto.mkState (Crypto.w32 (Crypto.ha h + Crypto.ha r))
      (Crypto.w32 (Crypto.hb h + Crypto.hb r))
      (Crypto.w32 (Crypto.hc h + Crypto.hc r))
      (Crypto.w32 (Crypto.hd h + Crypto.hd r))
      (Crypto.w32 (Crypto.he h + Crypto.he r)).
Proof. reflexivity. Qed.

Lemma compress_model (p : list Z) (i : nat) (h : Crypto.state) :
  toVars (Crypto.compress h (firstn 64 (skipn (64 * i) p)))
  = FIPS180.hashBlock p (toVars h) i.
Proof.
  rewrite compress_unfold. cbv zeta.
  rewrite W_first_16, (schedule_model p i 64 16) by lia.
  rewrite rev_involutive.
  replace (16 + 64)%nat with 80%nat by reflexivity.
  rewrite sum_words_model.
  rewrite rounds_model_all, W_length.
  reflexivity.
Qed.

Lemma blocks_step (n : nat) (q : list Z) (h : Crypto.state) :
  Crypto.blocks (S n) q h
  = Crypto.blocks n (skipn 64 q) (Crypto.compress h (firstn 64 q)).
Proof. reflexivity. Qed.

Lemma fold_left_seq_step {A} (g : A -> nat -> A) (i n : nat) (a : A) :
  fold_left g (seq i (S n)) a = fold_left g (seq (S i) n) (g a i).
Proof. reflexivity. Qed.

Lemma blocks_model (p : list Z) (n i : nat) (h : Crypto.state) :
  toVars (Crypto.blocks n (skipn (64 * i) p) h)
  = fold_left (FIPS180.hashBlock p) (seq i n) (toVars h).
Proof.
  revert i h. induction n as [|n IH]; intros i h; [reflexivity|].
  rewrite blocks_step, fold_left_seq_step, skipn_skipn.
  replace (64 + 64 * i)%nat with (64 * S i)%nat by lia.
  rewrite IH, compress_model. reflexivity.
Qed.

Lemma wordBytes_model (w : Z) : FIPS180.wordBytes w = be32 w.
Proof.
  unfold FIPS180.wordBytes, be32. cbn [map Z.of_nat].
  change (8 * Z.of_nat 0) with 0. change (2 ^ 0) with 1.
  now rewrite Z.div_1_r.
Qed.

(** The executable hash computes the SHA-1 of FIPS 180-4, for every
    message. *)
Lemma sha1_model (msg : list Z) : Crypto.sha1 msg = FIPS180.sha1 msg.
Proof.
  unfold Crypto.sha1, FIPS180.sha1.
  rewrite <- pad_model.
  pose proof (blocks_model (Crypto.pad msg) (length (Crypto.pad msg) / 64) 0
                Crypto.initial) as Hb.
  change (skipn (64 * 0) (Crypto.pad msg)) with (Crypto.pad msg) in Hb.
  change (toVars Crypto.initial) with FIPS180.H0 in Hb.
  rewrite <- Hb. unfold toVars. cbn [flat_map FIPS180.va FIPS180.vb FIPS180.vc
    FIPS180.vd FIPS180.ve].
  rewrite !wordBytes_model, app_nil_r. reflexivity.
Qed.

(** ** base64 *)

Lemma sextet_alphabet (v : Z) :
  Crypto.sextet v = nth (Z.to_nat (v mod 64)) RFC4648.alphabet "="%char.
Proof.
  unfold Crypto.sextet.
  pose proof (Z.mod_pos_bound v 64 ltac:(lia)) as Hb.
  pose proof (below_cases 64
    (fun i => Ascii.eqb
       match String.get (Z.to_nat i) Crypto.alphabet with
       | Some c => c
       | None => "="%char
       end
       (nth (Z.to_nat i) RFC4648.alphabet "="%char)) eq_refl (v mod 64) Hb) as H.
  now apply Ascii.eqb_eq in H.
Qed.

Lemma valueOf_from (bits : list bool) (acc : Z) :
  fold_left (fun a (b : bool) => 2 * a + (if b then 1 else 0)) bits acc
  = acc * 2 ^ Z.of_nat (length bits) + RFC4648.valueOf bits.
Proof.
  unfold RFC4648.valueOf. revert acc.
  induction bits as [|b bits IH]; intros acc; [cbn; lia|].
  cbn [fold_left length]. rewrite IH, (IH (2 * 0 + _)).
  rewrite Nat2Z.inj_succ, Z.pow_succ_r by lia. ring.
Qed.

Lemma valueOf_app (hi lo : list bool) :
  RFC4648.valueOf (hi ++ lo)
  = RFC4648.valueOf hi * 2 ^ Z.of_nat (length lo) + RFC4648.valueOf lo.
Proof.
  unfold RFC4648.valueOf at 1. rewrite fold_left_app.
  fold (RFC4648.valueOf hi). apply valueOf_from.
Qed.

(** The bit groups of one byte, as numbers. *)
Lemma byte_bit_groups (x : Z) :
  is_byte x ->
  RFC4648.valueOf [Z.testbit x 7; Z.testbit x 6; Z.testbit x 5;
                   Z.testbit x 4; Z.testbit x 3; Z.testbit x 2] = x / 4
  /\ RFC4648.valueOf [Z.testbit x 1; Z.testbit x 0] = x mod 4
  /\ RFC4648.valueOf [Z.testbit x 7; Z.testbit x 6; Z.testbit x 5;
                      Z.testbit x 4] = x / 16
  /\ RFC4648.valueOf [Z.testbit x 3; Z.testbit x 2; Z.testbit x 1;
                      Z.testbit x 0] = x mod 16
  /\ RFC4648.valueOf [Z.testbit x 7; Z.testbit x 6] = x / 64
  /\ RFC4648.valueOf [Z.testbit x 5; Z.testbit x 4; Z.testbit x 3;
                      Z.testbit x 2; Z.testbit x 1; Z.testbit x 0] = x mod 64.
Proof.
  intros Hx.
  pose proof (byte_cases
    (fun x =>
       (RFC4648.valueOf [Z.testbit x 7; Z.testbit x 6; Z.testbit x 5;
                         Z.testbit x 4; Z.testbit x 3; Z.testbit x 2] =? x / 4)
       && (RFC4648.valueOf [Z.testbit x 1; Z.testbit x 0] =? x mod 4)
       && (RFC4648.valueOf [Z.testbit x 7; Z.testbit x 6; Z.testbit x 5;
                            Z.testbit x 4] =? x / 16)
       && (RFC4648.valueOf [Z.testbit x 3; Z.testbit x 2; Z.testbit x 1;
                            Z.testbit x 0] =? x mod 16)
       && (RFC4648.valueOf [Z.testbit x 7; Z.testbit x 6] =? x / 64)
       && (RFC4648.valueOf [Z.testbit x 5; Z.testbit x 4; Z.testbit x 3;
                            Z.testbit x 2; Z.testbit x 1; Z.testbit x 0]
           =? x mod 64))
    ltac:(vm_compute; reflexivity) x Hx) as H.
  repeat (apply andb_true_iff in H; destruct H as [H ?]).
  repeat split; now apply Z.eqb_eq.
Qed.

Lemma list_ind3 {A} (P : list A -> Prop) :
  P [] ->
  (forall x, P [x]) ->
  (forall x y, P [x; y]) ->
  (forall x y z rest, P rest -> P (x :: y :: z :: rest)) ->
  forall l, P l.
Proof.
  intros H0 H1 H2 H3.
  assert (Hall : forall n l, (length l <= n)%nat -> P l).
  { induction n as [|n IH]; intros l Hl.
    - destruct l; [exact H0 | cbn in Hl; lia].
    - destruct l as [|x [|y [|z rest]]]; auto.
      apply H3, IH. cbn in Hl. lia. }
  intros l. now apply (Hall (length l)).
Qed.

Ltac bit_groups :=
  unfold RFC4648.sixes, RFC4648.bitsOfByte;
  cbn [map seq app firstn skipn Nat.mul Nat.add repeat Z.of_nat
       Pos.of_succ_nat Pos.succ];
  rewrite ?sextet_alphabet.

Ltac group_value :=
  unfold is_byte in *; cbn [length Z.of_nat Pos.of_succ_nat Pos.succ];
  Z.div_mod_to_equations; lia.

Lemma sixes_of_three (x y z : Z) :
  is_byte x -> is_byte y -> is_byte z ->
  RFC4648.sixes
    (RFC4648.bitsOfByte x ++ RFC4648.bitsOfByte y ++ RFC4648.bitsOfByte z) 4
  = [Crypto.sextet ((x * 65536 + y * 256 + z) / 262144);
     Crypto.sextet ((x * 65536 + y * 256 + z) / 4096);
     Crypto.sextet ((x * 65536 + y * 256 + z) / 64);
     Crypto.sextet (x * 65536 + y * 256 + z)].
Proof.
  intros Hx Hy Hz.
  destruct (byte_bit_groups x Hx) as (Hx6 & Hx2 & _).
  destruct (byte_bit_groups y Hy) as (_ & _ & Hy4 & Hy4' & _).
  destruct (byte_bit_groups z Hz) as (_ & _ & _ & _ & Hz2 & Hz6).
  bit_groups.
  repeat (f_equal; try (f_equal; f_equal)).
  - rewrite Hx6. group_value.
  - change [Z.testbit x 1; Z.testbit x 0; Z.testbit y 7; Z.testbit y 6;
            Z.testbit y 5; Z.testbit y 4]
      with ([Z.testbit x 1; Z.testbit x 0]
            ++ [Z.testbit y 7; Z.testbit y 6; Z.testbit y 5; Z.testbit y 4]).
    rewrite valueOf_app, Hx2, Hy4. group_value.
  - change [Z.testbit y 3; Z.testbit y 2; Z.testbit y 1; Z.testbit y 0;
            Z.testbit z 7; Z.testbit z 6]
      with ([Z.testbit y 3; Z.testbit y 2; Z.testbit y 1; Z.testbit y 0]
            ++ [Z.testbit z 7; Z.testbit z 6]).
    rewrite valueOf_app, Hy4', Hz2. group_value.
  - rewrite Hz6. group_value.
Qed.

Lemma sixes_of_two (x y : Z) :
  is_byte x -> is_byte y ->
  RFC4648.sixes (RFC4648.bitsOfByte x ++ RFC4648.bitsOfByte y) 3
  = [Crypto.sextet ((x * 65536 + y * 256) / 262144);
     Crypto.sextet ((x * 65536 + y * 256) / 4096);
     Crypto.sextet ((x * 65536 + y * 256) / 64)].
Proof.
  intros Hx Hy.
  destruct (byte_bit_groups x Hx) as (Hx6 & Hx2 & _).
  destruct (byte_bit_groups y Hy) as (_ & _ & Hy4 & Hy4' & _).
  bit_groups.
  repeat (f_equal; try (f_equal; f_equal)).
  - rewrite Hx6. group_value.
  - change [Z.testbit x 1; Z.testbit x 0; Z.testbit y 7; Z.testbit y 6;
            Z.testbit y 5; Z.testbit y 4]
      with ([Z.testbit x 1; Z.testbit x 0]
            ++ [Z.testbit y 7; Z.testbit y 6; Z.testbit y 5; Z.testbit y 4]).
    rewrite valueOf_app, Hx2, Hy4. group_value.
  - change [Z.testbit y 3; Z.testbit y 2; Z.testbit y 1; Z.testbit y 0;
            false; false]
      with ([Z.testbit y 3; Z.testbit y 2; Z.testbit y 1; Z.testbit y 0]
            ++ [false; false]).
    rewrite valueOf_app, Hy4'. change (RFC4648.valueOf [false; false]) with 0.
    group_value.
Qed.

Lemma sixes_of_one (x : Z) :
  is_byte x ->
  RFC4648.sixes (RFC4648.bitsOfByte x) 2
  = [Crypto.sextet (x * 65536 / 262144); Crypto.sextet (x * 65536 / 4096)].
Proof.
  intros Hx.
  destruct (byte_bit_groups x Hx) as (Hx6 & Hx2 & _).
  bit_groups.
  repeat (f_equal; try (f_equal; f_equal)).
  - rewrite Hx6. group_value.
  - change [Z.testbit x 1; Z.testbit x 0; false; false; false; false]
      with ([Z.testbit x 1; Z.testbit x 0] ++ [false; false; false; false]).
    rewrite valueOf_app, Hx2.
    change (RFC4648.valueOf [false; false; false; false]) with 0.
    group_value.
Qed.

(** The executable encoder produces the base64 text of RFC 4648, for every
    list of bytes. *)
Lemma base64_model (bs : list Z) :
  Forall is_byte bs -> Crypto.base64 bs = RFC4648.encode bs.
Proof.
  unfold RFC4648.encode.
  induction bs as [| x | x y | x y z rest IH] using list_ind3; intros Hb.
  - reflexivity.
  - inversion Hb as [|? ? Hx _]; subst.
    cbn [Crypto.base64 RFC4648.encodeChars].
    rewrite sixes_of_one by exact Hx. reflexivity.
  - inversion Hb as [|? ? Hx Hb']; subst. inversion Hb' as [|? ? Hy _]; subst.
    cbn [Crypto.base64 RFC4648.encodeChars].
    rewrite sixes_of_two by assumption. reflexivity.
  - inversion Hb as [|? ? Hx Hb']; subst. inversion Hb' as [|? ? Hy Hb'']; subst.
    inversion Hb'' as [|? ? Hz Hrest]; subst.
    cbn [Crypto.base64 RFC4648.encodeChars].
    rewrite sixes_of_three by assumption.
    cbn [app string_of_list_ascii]. rewrite IH by exact Hrest. reflexivity.
Qed.

Lemma sha1_bytes (msg : list Z) : Forall is_byte (FIPS180.sha1 msg).
Proof.
  unfold FIPS180.sha1. cbn [flat_map]. rewrite !wordBytes_model, app_nil_r.
  repeat (apply Forall_app; split); apply be32_bytes.
Qed.

(** C6.  For every client key the accept token is the base64 text (RFC 4648)
    of the SHA-1 digest (FIPS 180-4) of the key followed by the protocol
    GUID; for the key of RFC 6455's example it is
    [s3pPLMBiTxaQ9kYGzzhZRbK+xOo=]. *)
Theorem createSocketAccept_token :
  (forall clientKey : string,
      createSocketAccept clientKey
      = RFC4648.encode (FIPS180.sha1
          (bytes_of_string clientKey
           ++ bytes_of_string "258EAFA5-E914-47DA-95CA-C5AB0DC85B11")))
  /\ createSocketAccept "dGhlIHNhbXBsZSBub25jZQ==" = "s3pPLMBiTxaQ9kYGzzhZRbK+xOo="%string.
Proof.
  split.
  - intros clientKey. unfold createSocketAccept, WEB_SOCKET_MAGIC_STRING.
    rewrite bytes_of_string_app, sha1_model.
    apply base64_model, sha1_bytes.
  - vm_compute. reflexivity.
Qed.

(** Known answers of the two standards (FIPS 180-4 examples, RFC 4648
    section 10). *)
Example FIPS180_sha1_abc :
  FIPS180.sha1 (bytes_of_string "abc")
  = [0xa9; 0x99; 0x3e; 0x36; 0x47; 0x06; 0x81; 0x6a; 0xba; 0x3e;
     0x25; 0x71; 0x78; 0x50; 0xc2; 0x6c; 0x9c; 0xd0; 0xd8; 0x9d].
Proof. vm_compute. reflexivity. Qed.

Example FIPS180_sha1_two_blocks :
  FIPS180.sha1 (bytes_of_string
    "abcdbcdecdefdefgefghfghighijhijkijkljklmklmnlmnomnopnopq")
  = [0x84; 0x98; 0x3e; 0x44; 0x1c; 0x3b; 0xd2; 0x6e; 0xba; 0xae;
     0x4a; 0xa1; 0xf9; 0x51; 0x29; 0xe5; 0xe5; 0x46; 0x70; 0xf1].
Proof. vm_compute. reflexivity. Qed.

Example RFC4648_vectors :
  RFC4648.encode (bytes_of_string "") = ""%string
  /\ RFC4648.encode (bytes_of_string "f") = "Zg=="%string
  /\ RFC4648.encode (bytes_of_string "fo") = "Zm8="%string
  /\ RFC4648.encode (bytes_of_string "foo") = "Zm9v"%string
  /\ RFC4648.encode (bytes_of_string "foob") = "Zm9vYg=="%string
  /\ RFC4648.encode (bytes_of_string "fooba") = "Zm9vYmE="%string
  /\ RFC4648.encode (bytes_of_string "foobar") = "Zm9vYmFy"%string.
Proof. repeat split; vm_compute; reflexivity. Qed.
